(** * promlinter: a shallow embedding of [main.go]

    The linter asks a Prometheus server for its recording and alerting
    rules, parses every rule expression, collects the metric names the
    expression selects by name, and asks the server whether each of
    them has any series.  Answers are memoised in [ruleLinter.metrics].

    The program is a handful of functions around three external
    collaborators: the PromQL parser and its syntax tree, the Prometheus
    HTTP API client, and the Go runtime (clock, map iteration order,
    [net/url]).  The collaborators are gathered in an environment [Env];
    the program's own functions are written as state-passing functions
    over [State], which holds the memo table, the log of the API calls
    issued so far, and what has been printed on standard error. *)

From Stdlib Require Import ZArith Ascii String.
From stdpp Require Import gmap strings list fin_maps.

Set Warnings "-clear-no-such-hyp".

Open Scope string_scope.
Open Scope list_scope.
Open Scope nat_scope.

(** ** Errors and diagnostics *)

(** Go [error] values.  Formatted messages keep their format string and
    arguments apart, so that no model of the [%q] verb is needed. *)
Inductive error : Type :=
| ExternalError (msg : string)
| New (msg : string)
| Errorf (format : string) (args : list string)
| Wrap (cause : error) (msg : string)
| Wrapf (cause : error) (format : string) (args : list string).

(** One write on [os.Stderr]. *)
Inductive Output : Type :=
| Fprintln (e : error)
| FprintlnString (s : string)
| Fprintf (format : string) (args : list string)
| PrintDefaults.

(** ** The PromQL syntax tree ([promql.Node]) *)

Inductive MatchType : Type := MatchEqual | MatchNotEqual | MatchRegexp | MatchNotRegexp.

Record Matcher : Type := mkMatcher {
  mType : MatchType;
  mName : string;
  mValue : string
}.

(** Durations are nanosecond counts, [NumberLiteral] carries the bits of
    its [float64]. *)
#[warnings="-register-all"]
Inductive Node : Type :=
| EvalStmt (e : Node)
| Expressions (es : list Node)
| AggregateExpr (op : string) (e : Node) (param : option Node)
    (grouping : list string) (without : bool)
| BinaryExpr (op : string) (lhs rhs : Node) (returnBool : bool)
| Call (func : string) (args : list Node)
| MatrixSelector (name : string) (range offset : Z) (matchers : list Matcher)
| SubqueryExpr (e : Node) (range offset step : Z)
| NumberLiteral (val : Z)
| ParenExpr (e : Node)
| StringLiteral (val : string)
| UnaryExpr (op : string) (e : Node)
| VectorSelector (name : string) (offset : Z) (matchers : list Matcher).

(** The callback type of [promql.Inspect]; [None] is the [nil] node that
    [Walk] passes after the children of a node.  The callback's captured
    variables are the threaded [S]. *)
Definition inspector (S : Type) : Type :=
  option Node -> list Node -> S -> S * option error.

(** The loop of [Walk] over an [Expressions] value: walk each element
    in turn with [walk], stopping at the first error. *)
Section WalkList.
Context {S : Type} (walk : Node -> list Node -> S -> S * option error).

Fixpoint walkList (es : list Node) (path : list Node) (s : S) {struct es}
  : S * option error :=
  match es with
  | [] => (s, None)
  | e :: es =>
    match walk e path s with
    | (s, Some err) => (s, Some err)
    | (s, None) => walkList es path s
    end
  end.

End WalkList.

Section Walk.
Context {S : Type} (v : inspector S).

(** [promql.Walk]: visit the node, then its children in order, then
    visit [nil]; an error from the callback stops the walk. *)
Fixpoint Walk (node : Node) (path : list Node) (s : S) {struct node}
  : S * option error :=
  match v (Some node) path s with
  | (s, Some err) => (s, Some err)
  | (s, None) =>
    let path := path ++ [node] in
    let children :=
      match node with
      | EvalStmt e => Walk e path s
      | Expressions es => walkList Walk es path s
      | AggregateExpr _ e param _ _ =>
        match
          match param with
          | Some p => Walk p path s
          | None => (s, None)
          end
        with
        | (s, Some err) => (s, Some err)
        | (s, None) => Walk e path s
        end
      | BinaryExpr _ lhs rhs _ =>
        match Walk lhs path s with
        | (s, Some err) => (s, Some err)
        | (s, None) => Walk rhs path s
        end
      | Call _ args =>
        (* Walk(v, n.Args, path), where n.Args is an Expressions node *)
        match v (Some (Expressions args)) path s with
        | (s, Some err) => (s, Some err)
        | (s, None) =>
          match walkList Walk args (path ++ [Expressions args]) s with
          | (s, Some err) => (s, Some err)
          | (s, None) => v None [] s
          end
        end
      | SubqueryExpr e _ _ _ => Walk e path s
      | ParenExpr e => Walk e path s
      | UnaryExpr _ e => Walk e path s
      | MatrixSelector _ _ _ _ | NumberLiteral _ | StringLiteral _
      | VectorSelector _ _ _ => (s, None)
      end in
    match children with
    | (s, Some err) => (s, Some err)
    | (s, None) => v None [] s
    end
  end.

(** [promql.Inspect] discards the error of the walk. *)
Definition Inspect (node : Node) (s : S) : S := fst (Walk node [] s).

End Walk.

(** ** The Prometheus API ([api/prometheus/v1]) *)

(** [time.Time], as seconds since the zero value [time.Time{}]. *)
Definition Time : Type := Z.
Definition zeroTime : Time := 0%Z.

(** [model.LabelSet] *)
Definition LabelSet : Type := gmap string string.

Record RecordingRule : Type := mkRecordingRule {
  rrName : string;
  rrQuery : string;
  rrHealth : string
}.

Record AlertingRule : Type := mkAlertingRule {
  arName : string;
  arQuery : string;
  arDuration : Z;
  arHealth : string
}.

(** An element of [v1.Rules], which is [[]interface{}]: the type switch
    of [getRules] tells recording rules, alerting rules and any other
    dynamic type apart. *)
Inductive Rule : Type :=
| IsRecordingRule (v : RecordingRule)
| IsAlertingRule (v : AlertingRule)
| IsOther (dynamicType : string).

Record RuleGroup : Type := mkRuleGroup {
  Name : string;
  File : string;
  Rules : list Rule
}.

Record RulesResult : Type := mkRulesResult {
  Groups : list RuleGroup
}.

(** The arguments of [API.Series]. *)
Record SeriesRequest : Type := mkSeriesRequest {
  matches : list string;
  startTime : Time;
  endTime : Time
}.

(** What [API.Series] returns: an error, or the label sets and the
    warnings. *)
Definition SeriesResponse : Type := error + (list LabelSet * list string).

(** One round trip to the server. *)
Inductive ApiCall : Type :=
| RulesCall
| SeriesCall (req : SeriesRequest) (resp : SeriesResponse).

(** [url.URL], as far as [run] reads it. *)
Record URL : Type := mkURL {
  Scheme : string;
  Host : string;
  Path : string
}.

(** ** The environment of a run

    The server may answer the same request differently at different
    times, so [api_Series] and [time_Now] see the calls issued so far.
    Go leaves the order of a [range] over a map unspecified: [map_range]
    gives the order of the [n]-th such loop of the process. *)
Record Env : Type := mkEnv {
  url_Parse : string -> error + URL;
  api_Rules : error + RulesResult;
  api_Series : list ApiCall -> SeriesRequest -> SeriesResponse;
  time_Now : list ApiCall -> Time;
  promql_ParseExpr : string -> error + Node;
  map_range : nat -> gset string -> list string
}.

(** A [range] over a map yields every key exactly once. *)
Definition range_ok (E : Env) : Prop :=
  forall (n : nat) (m : gset string), map_range E n m ≡ₚ elements m.

(** ** The state of the process *)

Record State : Type := mkState {
  metrics : gmap string bool;
  calls : list ApiCall;
  ranges : nat;
  stderr : list Output
}.

Definition setMetrics (m : gmap string bool) (st : State) : State :=
  mkState m (calls st) (ranges st) (stderr st).

Definition logCall (c : ApiCall) (st : State) : State :=
  mkState (metrics st) (calls st ++ [c]) (ranges st) (stderr st).

Definition tickRange (st : State) : State :=
  mkState (metrics st) (calls st) (Datatypes.S (ranges st)) (stderr st).

Definition print (o : Output) (st : State) : State :=
  mkState (metrics st) (calls st) (ranges st) (stderr st ++ [o]).

(** The process starts with nothing called and nothing printed. *)
Definition initState : State := mkState ∅ [] 0 [].

(** [newRuleLinter]: [api.NewClient] parses the address once more and
    fails only if that fails; the linter starts with a fresh, empty memo
    table. *)
Definition newRuleLinter (E : Env) (promURL : string) (st : State)
  : option error * State :=
  match url_Parse E promURL with
  | inl err => (Some err, st)
  | inr _ => (None, setMetrics ∅ st)
  end.

(** ** [ruleLinter.getRules] *)

Definition ruleQuery (queries : list string) (rule : Rule) : list string :=
  match rule with
  | IsRecordingRule v => queries ++ [rrQuery v]
  | IsAlertingRule v => queries ++ [arQuery v]
  | IsOther _ => queries
  end.

Definition groupQueries (queries : list string) (group : RuleGroup) : list string :=
  fold_left ruleQuery (Rules group) queries.

Definition getRules (E : Env) (st : State) : (list string * option error) * State :=
  let st := logCall RulesCall st in
  match api_Rules E with
  | inl err => (([], Some (Wrapf err "failed to get rules" [])), st)
  | inr res => ((fold_left groupQueries (Groups res) [], None), st)
  end.

(** ** [ruleLinter.getMetrics] *)

(** The function literal passed to [promql.Inspect]; the captured map
    [metrics], a [map[string]struct{}], is a set of strings. *)
Definition collect : inspector (gset string) :=
  fun node _ metrics =>
    match node with
    | Some (VectorSelector name _ _) =>
      if decide (name = "") then (metrics, None)
      else ({[name]} ∪ metrics, None)
    | Some (MatrixSelector name _ _ _) =>
      if decide (name = "") then (metrics, None)
      else ({[name]} ∪ metrics, None)
    | _ => (metrics, None)
    end.

Definition getMetrics (E : Env) (rule : string) (st : State)
  : (list string * option error) * State :=
  match promql_ParseExpr E rule with
  | inl err => (([], Some err), st)
  | inr expr =>
    let metrics := Inspect collect expr ∅ in
    ((map_range E (ranges st) metrics, None), tickRange st)
  end.

(** ** [ruleLinter.metricExists] *)

Definition seriesRequest (E : Env) (name : string) (st : State) : SeriesRequest :=
  mkSeriesRequest [name] zeroTime (time_Now E (calls st)).

Definition metricExists (E : Env) (name : string) (st : State)
  : (bool * option error) * State :=
  match metrics st !! name with
  | None =>
    let req := seriesRequest E name st in
    let resp := api_Series E (calls st) req in
    let st := logCall (SeriesCall req resp) st in
    match resp with
    | inl err => ((false, Some (Wrapf err "failed to get metric %q" [name])), st)
    | inr (lset, _) =>
      let st := setMetrics (<[name := bool_decide (0 < length lset)]> (metrics st)) st in
      ((default false (metrics st !! name), None), st)
    end
  | Some _ => ((default false (metrics st !! name), None), st)
  end.

(** ** [run] and [main] *)

Definition finding (rule metric : string) : Output :=
  Fprintf "rule %q: metric %q not found!\n" [rule; metric].

(** The body of the inner loop of [run]. *)
Definition checkMetric (E : Env) (rule : string) (st : State) (metric : string) : State :=
  let '((found, err), st) := metricExists E metric st in
  match err with
  | Some e => print (Fprintln e) st
  | None => if found then st else print (finding rule metric) st
  end.

(** The body of the outer loop of [run]. *)
Definition lintRule (E : Env) (st : State) (rule : string) : State :=
  let '((ms, err), st) := getMetrics E rule st in
  match err with
  | Some e => print (Fprintln e) st
  | None => fold_left (checkMetric E rule) ms st
  end.

Definition run (E : Env) (promURL : string) (st : State) : option error * State :=
  if decide (promURL = "") then (Some (New "Missing -url parameter"), st)
  else
    match url_Parse E promURL with
    | inl err => (Some (Wrap err "Invalid URL"), st)
    | inr u =>
      if decide (Scheme u ≠ "http" ∧ Scheme u ≠ "https")
      then (Some (Errorf "Invalid URL scheme: %s" [Scheme u]), st)
      else
        match newRuleLinter E promURL st with
        | (Some err, st) => (Some err, st)
        | (None, st) =>
          let '((rules, err), st) := getRules E st in
          match err with
          | Some e => (Some e, st)
          | None => (None, fold_left (lintRule E) rules st)
          end
        end
    end.

(** [main]: the exit status of the process and its final state. *)
Definition main (E : Env) (help : bool) (promURL : string) : Z * State :=
  if help
  then (0%Z, print PrintDefaults (print (FprintlnString "Prometheus rules linter") initState))
  else
    match run E promURL initState with
    | (Some err, st) => (2%Z, print (Fprintln err) st)
    | (None, st) => (0%Z, st)
    end.

(** ** Notions used to state the properties *)

(** The nodes directly below a node: its fields of type [Node], [Expr]
    or [Expressions]. *)
Definition children (n : Node) : list Node :=
  match n with
  | EvalStmt e => [e]
  | Expressions es => es
  | AggregateExpr _ e param _ _ => e :: from_option (λ p, [p]) [] param
  | BinaryExpr _ lhs rhs _ => [lhs; rhs]
  | Call _ args => [Expressions args]
  | SubqueryExpr e _ _ _ => [e]
  | ParenExpr e => [e]
  | UnaryExpr _ e => [e]
  | MatrixSelector _ _ _ _ | NumberLiteral _ | StringLiteral _
  | VectorSelector _ _ _ => []
  end.

(** [subnode m n]: [m] occurs in the tree rooted at [n]. *)
Inductive subnode : Node -> Node -> Prop :=
| subnode_here (n : Node) : subnode n n
| subnode_below (m c n : Node) : c ∈ children n -> subnode m c -> subnode m n.

(** The [Name] field of an instantaneous or range selector. *)
Definition selectorName (n : Node) : option string :=
  match n with
  | VectorSelector name _ _ => Some name
  | MatrixSelector name _ _ _ => Some name
  | _ => None
  end.

(** [selects n k]: some selector node of the tree [n] has the non-empty
    name [k]. *)
Definition selects (n : Node) (k : string) : Prop :=
  k ≠ "" ∧ ∃ m, subnode m n ∧ selectorName m = Some k.

(** The number of selector nodes of the tree whose [Name] is [M]. *)
Fixpoint refCount (M : string) (n : Node) {struct n} : nat :=
  match n with
  | EvalStmt e | SubqueryExpr e _ _ _ | ParenExpr e | UnaryExpr _ e => refCount M e
  | Expressions es | Call _ es => sum_list (refCount M <$> es)
  | AggregateExpr _ e param _ _ =>
    refCount M e + match param with Some p => refCount M p | None => 0 end
  | BinaryExpr _ lhs rhs _ => refCount M lhs + refCount M rhs
  | MatrixSelector name _ _ _ | VectorSelector name _ _ =>
    if decide (name = M) then 1 else 0
  | NumberLiteral _ | StringLiteral _ => 0
  end.

(** The non-empty selector names of a tree, as a set. *)
Fixpoint names (n : Node) {struct n} : gset string :=
  match n with
  | EvalStmt e | SubqueryExpr e _ _ _ | ParenExpr e | UnaryExpr _ e => names e
  | Expressions es | Call _ es => ⋃ (names <$> es)
  | AggregateExpr _ e param _ _ =>
    names e ∪ match param with Some p => names p | None => ∅ end
  | BinaryExpr _ lhs rhs _ => names lhs ∪ names rhs
  | MatrixSelector name _ _ _ | VectorSelector name _ _ =>
    if decide (name = "") then ∅ else {[name]}
  | NumberLiteral _ | StringLiteral _ => ∅
  end.

(** Is this call a series query for [name]? *)
Definition seriesFor (name : string) (c : ApiCall) : bool :=
  match c with
  | SeriesCall req _ => bool_decide (matches req = [name])
  | RulesCall => false
  end.

(** The number of series queries for [name] among the calls. *)
Definition seriesCount (name : string) (cs : list ApiCall) : nat :=
  length (List.filter (seriesFor name) cs).

(** Did the server answer this call with an error? *)
Definition failed (c : ApiCall) : bool :=
  match c with
  | SeriesCall _ (inl _) => true
  | _ => false
  end.

(** The verdict [metricExists] draws from a successful answer. *)
Definition verdict (lset : list LabelSet) : bool := bool_decide (0 < length lset).

(** A sequence of calls of [metricExists], as the inner loop of [run]
    or any other caller would issue them; the results are dropped. *)
Definition existsAll (E : Env) (ns : list string) (st : State) : State :=
  fold_left (λ st n, snd (metricExists E n st)) ns st.

(** The states the process can be in: [run] only ever changes the state
    through these steps. *)
Inductive reachable (E : Env) : State -> Prop :=
| reach_init : reachable E initState
| reach_rules (st : State) : reachable E st -> reachable E (logCall RulesCall st)
| reach_range (st : State) : reachable E st -> reachable E (tickRange st)
| reach_print (o : Output) (st : State) : reachable E st -> reachable E (print o st)
| reach_exists (name : string) (st : State) :
    reachable E st -> reachable E (snd (metricExists E name st)).

(** A server whose answer to a series query depends on the queried name
    alone: the "unchanged backend". *)
Definition steady (E : Env) : Prop :=
  forall (h1 h2 : list ApiCall) (r1 r2 : SeriesRequest),
    matches r1 = matches r2 -> api_Series E h1 r1 = api_Series E h2 r2.

(** What the server says about a name, when it is [steady]. *)
Definition answer (E : Env) (name : string) : SeriesResponse :=
  api_Series E [] (mkSeriesRequest [name] zeroTime zeroTime).

(** [listRuleQueries] in the words of the specification: the queries of
    the recording and alerting rules, groups in order and rules in order
    within a group; rules of any other kind are left out. *)
Definition queryOf (rule : Rule) : option string :=
  match rule with
  | IsRecordingRule v => Some (rrQuery v)
  | IsAlertingRule v => Some (arQuery v)
  | IsOther _ => None
  end.

Definition listRuleQueries (res : RulesResult) : list string :=
  concat (map (λ g, omap queryOf (Rules g)) (Groups res)).

(** The address passes the checks of [run] and the listing succeeds
    with [res]. *)
Definition listed (E : Env) (promURL : string) (res : RulesResult) : Prop :=
  promURL ≠ "" ∧
  (∃ u, url_Parse E promURL = inr u ∧ (Scheme u = "http" ∨ Scheme u = "https")) ∧
  api_Rules E = inr res.

(** Two environments with the same server, parser and address parser;
    the clock and the order of map iteration may differ. *)
Definition sameBackend (E1 E2 : Env) : Prop :=
  url_Parse E1 = url_Parse E2 ∧ api_Rules E1 = api_Rules E2 ∧
  api_Series E1 = api_Series E2 ∧ promql_ParseExpr E1 = promql_ParseExpr E2.

(** The metric names a rule refers to; none if it does not parse. *)
Definition referenced (E : Env) (rule : string) : gset string :=
  match promql_ParseExpr E rule with
  | inl _ => ∅
  | inr expr => names expr
  end.

(** What checking [m] for [rule] prints when the server is [steady]. *)
Definition outcome (E : Env) (rule m : string) : list Output :=
  match answer E m with
  | inl err => [Fprintln (Wrapf err "failed to get metric %q" [m])]
  | inr (lset, _) => if verdict lset then [] else [finding rule m]
  end.

(** What a rule prints when its metrics are checked in the order [ms]. *)
Definition report (E : Env) (rule : string) (ms : list string) : list Output :=
  match promql_ParseExpr E rule with
  | inl err => [Fprintln err]
  | inr _ => ms ≫= outcome E rule
  end.

(** The rule of a finding about metric [M]. *)
Definition findingRule (M : string) (o : Output) : option string :=
  match o with
  | Fprintf format [rule; metric] =>
    if decide (format = "rule %q: metric %q not found!\n" ∧ metric = M)
    then Some rule else None
  | _ => None
  end.

(** The rules reported for metric [M], in the order of the output. *)
Definition findingsFor (M : string) (out : list Output) : list string :=
  omap (findingRule M) out.

(** The memo table and the log of calls tell the same story. *)
Record consistent (st : State) : Prop := mkConsistent {
  answered_cached : ∀ name c,
    c ∈ calls st → seriesFor name c = true → failed c = false →
    is_Some (metrics st !! name);
  repeated_failed : ∀ name l1 c1 l2 c2,
    calls st = l1 ++ c1 :: l2 → c2 ∈ l2 →
    seriesFor name c1 = true → seriesFor name c2 = true → failed c1 = true;
  cached_answered : ∀ name b,
    metrics st !! name = Some b →
    ∃ req lset w, SeriesCall req (inr (lset, w)) ∈ calls st ∧
                  matches req = [name] ∧ b = verdict lset
}.

(** Every entry of the memo table is what a [steady] server says. *)
Definition sound (E : Env) (st : State) : Prop :=
  ∀ m b, metrics st !! m = Some b →
    ∃ lset w, answer E m = inr (lset, w) ∧ b = verdict lset.

(** [st'] knows and has printed at least what [st] has. *)
Definition extends (st st' : State) : Prop :=
  (∀ m b, metrics st !! m = Some b → metrics st' !! m = Some b) ∧
  (∀ o, o ∈ stderr st → o ∈ stderr st').

(** What the check of metric [m] for [rule] adds to a run whose log of
    calls so far is [before]: the calls [c] and the lines [o].  Either
    the name was resolved by an answered query earlier in the log, and
    the check is settled from the table without a call; or one query for
    [m] is sent, the server's answer to it is logged, and the line is
    the server's error, wrapped, or the finding that the answer calls
    for. *)
Definition piece (E : Env) (rule m : string) (before c : list ApiCall)
    (o : list Output) : Prop :=
  (c = [] ∧
   ∃ req lset w, SeriesCall req (inr (lset, w)) ∈ before ∧ matches req = [m] ∧
                 o = if verdict lset then [] else [finding rule m]) ∨
  (∃ req err, c = [SeriesCall req (inl err)] ∧ matches req = [m] ∧
              api_Series E before req = inl err ∧
              o = [Fprintln (Wrapf err "failed to get metric %q" [m])]) ∨
  (∃ req lset w, c = [SeriesCall req (inr (lset, w))] ∧ matches req = [m] ∧
                 api_Series E before req = inr (lset, w) ∧
                 o = if verdict lset then [] else [finding rule m]).

(** The checks of the metrics [ms] of one rule, one after the other:
    each metric has its [piece], whatever became of the ones before. *)
Inductive pieces (E : Env) (rule : string)
  : list string → list ApiCall → list ApiCall → list Output → Prop :=
| pieces_nil (before : list ApiCall) : pieces E rule [] before [] []
| pieces_cons (m : string) (ms : list string) (before c cs : list ApiCall)
    (o os : list Output) :
    piece E rule m before c o →
    pieces E rule ms (before ++ c) cs os →
    pieces E rule (m :: ms) before (c ++ cs) (o ++ os).

(** What one rule adds to a run: its parse error and no call, or the
    [pieces] of its metrics, taken in some order. *)
Definition ruleTrace (E : Env) (rule : string) (before cs : list ApiCall)
    (out : list Output) : Prop :=
  match promql_ParseExpr E rule with
  | inl err => cs = [] ∧ out = [Fprintln err]
  | inr expr => ∃ ms, ms ≡ₚ elements (names expr) ∧ pieces E rule ms before cs out
  end.

(** What the rules add to a run, in listing order: each rule has its
    [ruleTrace], whatever became of the ones before. *)
Inductive runTrace (E : Env)
  : list string → list ApiCall → list ApiCall → list Output → Prop :=
| runTrace_nil (before : list ApiCall) : runTrace E [] before [] []
| runTrace_cons (rule : string) (rules : list string) (before c cs : list ApiCall)
    (o os : list Output) :
    ruleTrace E rule before c o →
    runTrace E rules (before ++ c) cs os →
    runTrace E (rule :: rules) before (c ++ cs) (o ++ os).

(** The server answers every query for [M] with no series. *)
Definition noSeries (E : Env) (M : string) : Prop :=
  ∀ h req, matches req = [M] → ∃ w, api_Series E h req = inr ([], w).

(** [M] has not been asked for yet, or has been asked for once and
    found missing. *)
Definition unresolvedOrMissing (M : string) (st : State) : Prop :=
  (metrics st !! M = None ∧ seriesCount M (calls st) = 0) ∨
  (metrics st !! M = Some false ∧ seriesCount M (calls st) = 1).

(** ** Notions used for the further properties of the program *)

(** [st'] is [st] after more work: the memo table has only gained
    entries, the log of calls and the output have only been appended
    to. *)
Definition grows (st st' : State) : Prop :=
  metrics st ⊆ metrics st' ∧
  calls st `prefix_of` calls st' ∧
  stderr st `prefix_of` stderr st' ∧
  ranges st ≤ ranges st'.

(** A series query for one metric that some rule of [rules] refers to,
    starting at the zero time. *)
Definition queryFor (E : Env) (rules : list string) (c : ApiCall) : Prop :=
  ∃ req resp m rule,
    c = SeriesCall req resp ∧ matches req = [m] ∧ startTime req = zeroTime ∧
    rule ∈ rules ∧ m ∈ referenced E rule.

(** The three kinds of lines a run prints about the rules [rules], each
    with what caused it: the parse error of a rule, the wrapped error of
    a failed query that is in the log [cs], or a finding. *)
Definition explained (E : Env) (rules : list string) (cs : list ApiCall)
    (o : Output) : Prop :=
  (∃ rule err, rule ∈ rules ∧ promql_ParseExpr E rule = inl err ∧ o = Fprintln err) ∨
  (∃ rule m err req,
     rule ∈ rules ∧ m ∈ referenced E rule ∧
     SeriesCall req (inl err) ∈ cs ∧ matches req = [m] ∧
     o = Fprintln (Wrapf err "failed to get metric %q" [m])) ∨
  (∃ rule m, rule ∈ rules ∧ m ∈ referenced E rule ∧ o = finding rule m).

(** The server answers every query for [m] with at least one series. *)
Definition hasSeries (E : Env) (m : string) : Prop :=
  ∀ h req, matches req = [m] →
    ∃ lset w, api_Series E h req = inr (lset, w) ∧ lset ≠ [].

(** The server fails every query for [M]. *)
Definition alwaysFails (E : Env) (M : string) : Prop :=
  ∀ h req, matches req = [M] → ∃ err, api_Series E h req = inl err.

(** Every entry of the memo table says "exists". *)
Definition allFound (st : State) : Prop :=
  ∀ m b, metrics st !! m = Some b → b = true.

(** ** Concrete environments

    Small servers, parsers and iteration orders on which the program
    is run in the examples below. *)

Module Demo.

(** A stand-in for [url.Parse] that follows [getScheme] of [net/url]:
    the scheme is the longest prefix of letters, digits, [+], [-] and
    [.] that starts with a letter and is followed by a colon, in lower
    case; without a colon after such a prefix there is no scheme. *)
Definition isLetter (c : ascii) : bool :=
  let n := nat_of_ascii c in
  (97 <=? n)%nat && (n <=? 122)%nat || (65 <=? n)%nat && (n <=? 90)%nat.

Definition isSchemeChar (c : ascii) : bool :=
  let n := nat_of_ascii c in
  (48 <=? n)%nat && (n <=? 57)%nat || (n =? 43)%nat || (n =? 45)%nat || (n =? 46)%nat.

Definition toLower (c : ascii) : ascii :=
  let n := nat_of_ascii c in
  if (65 <=? n)%nat && (n <=? 90)%nat then ascii_of_nat (n + 32) else c.

Fixpoint getScheme (scheme rest rawURL : string) : (string * string) * option error :=
  match rest with
  | EmptyString => (("", rawURL), None)
  | String c rest' =>
    if isLetter c then getScheme (scheme +:+ String c "") rest' rawURL
    else if isSchemeChar c then
      if decide (scheme = "") then (("", rawURL), None)
      else getScheme (scheme +:+ String c "") rest' rawURL
    else if decide (c = ":"%char) then
      if decide (scheme = "") then (("", ""), Some (ExternalError "missing protocol scheme"))
      else ((scheme, rest'), None)
    else (("", rawURL), None)
  end.

Fixpoint lower (s : string) : string :=
  match s with
  | EmptyString => ""
  | String c s => String (toLower c) (lower s)
  end.

Definition urlParse (rawURL : string) : error + URL :=
  match getScheme "" rawURL rawURL with
  | (_, Some err) => inl (Wrapf err "parse %q" [rawURL])
  | ((scheme, rest), None) => inr (mkURL (lower scheme) "" rest)
  end.

(** A parser given by a table of the expressions it accepts. *)
Fixpoint parseTable (t : list (string * Node)) (q : string) : error + Node :=
  match t with
  | [] => inl (ExternalError "parse error")
  | (q', n) :: t => if decide (q' = q) then inr n else parseTable t q
  end.

Definition nameIs (v : string) : Matcher := mkMatcher MatchEqual "__name__" v.

Definition table : list (string * Node) :=
  [ ("rate(http_requests_total[5m])",
     Call "rate" [MatrixSelector "http_requests_total" 300000000000 0
                    [nameIs "http_requests_total"]]);
    ("up == 0",
     BinaryExpr "==" (VectorSelector "up" 0 [nameIs "up"]) (NumberLiteral 0) false);
    ("up", VectorSelector "up" 0 [nameIs "up"]);
    ("up + up",
     BinaryExpr "+" (VectorSelector "up" 0 [nameIs "up"])
                    (VectorSelector "up" 0 [nameIs "up"]) false);
    ("sum(up) / count_over_time(up[1h:])",
     BinaryExpr "/"
       (AggregateExpr "sum" (VectorSelector "up" 0 [nameIs "up"]) None [] false)
       (Call "count_over_time" [SubqueryExpr (VectorSelector "up" 0 [nameIs "up"]) 3600000000000 0 0])
       false);
    ("foo + bar",
     BinaryExpr "+" (VectorSelector "foo" 0 [nameIs "foo"])
                    (VectorSelector "bar" 0 [nameIs "bar"]) false);
    ("{__name__='up'}", VectorSelector "" 0 [nameIs "up"]) ].

Definition oneSeries : list LabelSet := [ {[ "__name__" := "up" ]} ].

(** The server knows [up] and nothing else. *)
Definition series (_ : list ApiCall) (req : SeriesRequest) : SeriesResponse :=
  if decide (matches req = ["up"]) then inr (oneSeries, []) else inr ([], []).

(** The server fails every series query. *)
Definition seriesDown (_ : list ApiCall) (_ : SeriesRequest) : SeriesResponse :=
  inl (ExternalError "server error").

(** The server fails the first series query it receives and answers the
    later ones as [series] does. *)
Definition seriesFlaky (h : list ApiCall) (req : SeriesRequest) : SeriesResponse :=
  if existsb failed h then series h req else inl (ExternalError "server error").

Definition clock (h : list ApiCall) : Time := (1557000000 + Z.of_nat (length h))%Z.

Definition rules (qs : list string) : error + RulesResult :=
  inr (mkRulesResult [mkRuleGroup "g" "rules.yml"
         (map (λ q, IsAlertingRule (mkAlertingRule "a" q 0 "ok")) qs)]).

(** Two groups, with a recording rule, alerting rules and a value of
    another type. *)
Definition twoGroups : error + RulesResult :=
  inr (mkRulesResult
    [ mkRuleGroup "g1" "a.yml"
        [ IsRecordingRule (mkRecordingRule "r1" "rate(http_requests_total[5m])" "ok");
          IsOther "string";
          IsAlertingRule (mkAlertingRule "a1" "up == 0" 0 "ok") ];
      mkRuleGroup "g2" "b.yml"
        [ IsAlertingRule (mkAlertingRule "a2" "foo + bar" 0 "ok");
          IsRecordingRule (mkRecordingRule "r2" "sum(" "err") ] ]).

Definition ascending (_ : nat) (m : gset string) : list string := elements m.
Definition descending (_ : nat) (m : gset string) : list string := reverse (elements m).

Definition env (rs : error + RulesResult)
    (srv : list ApiCall -> SeriesRequest -> SeriesResponse)
    (order : nat -> gset string -> list string) : Env :=
  mkEnv urlParse rs srv clock (parseTable table) order.

Definition address : string := "http://localhost:9090".

(** The two groups against the server that knows [up], with the two
    iteration orders. *)
Definition upAscending : Env := env twoGroups series ascending.
Definition upDescending : Env := env twoGroups series descending.

(** The two groups against the server that fails the first query. *)
Definition flaky : Env := env twoGroups seriesFlaky ascending.

(** The same rule twice against the server that fails every query. *)
Definition down : Env := env (rules ["up"; "up"]) seriesDown ascending.

(** A rule that is listed twice and refers to two missing metrics. *)
Definition repeated : Env :=
  env (rules ["foo + bar"; "up"; "foo + bar"]) series descending.

(** The listing itself fails. *)
Definition listingDown : Env :=
  env (inl (ExternalError "connection refused")) series ascending.

(** Rules that refer to [up] only, against the server that knows it. *)
Definition healthy : Env :=
  env (rules ["up"; "up == 0"; "sum(up) / count_over_time(up[1h:])"]) series ascending.

(** The server has a series for [up] when first asked and none later. *)
Definition seriesOnce (h : list ApiCall) (req : SeriesRequest) : SeriesResponse :=
  if decide (h = []) then series h req else inr ([], []).

Definition vanishing : Env := env (rules ["up"; "up == 0"]) seriesOnce ascending.

End Demo.

(** * Properties *)

(** ** The syntax tree and its traversal *)

Section NodeInduction.
Context (P : Node -> Prop).
Context (HEval : ∀ e, P e → P (EvalStmt e)).
Context (HExprs : ∀ es, Forall P es → P (Expressions es)).
Context (HAgg : ∀ op e param g w,
  P e → from_option P True param → P (AggregateExpr op e param g w)).
Context (HBin : ∀ op l r b, P l → P r → P (BinaryExpr op l r b)).
Context (HCall : ∀ f args, Forall P args → P (Call f args)).
Context (HMatrix : ∀ name r o ms, P (MatrixSelector name r o ms)).
Context (HSub : ∀ e r o st, P e → P (SubqueryExpr e r o st)).
Context (HNum : ∀ val, P (NumberLiteral val)).
Context (HParen : ∀ e, P e → P (ParenExpr e)).
Context (HStr : ∀ val, P (StringLiteral val)).
Context (HUnary : ∀ op e, P e → P (UnaryExpr op e)).
Context (HVector : ∀ name o ms, P (VectorSelector name o ms)).

(** Induction on trees, with the hypothesis available for every element
    of an argument list. *)
Lemma Node_induction : ∀ n, P n.
Proof.
  fix IH 1. intros n. destruct n as
    [e|es|op e param g w|op l r b|f args|name r o ms|e r o st|val|e|val|op e|name o ms].
  - apply HEval, IH.
  - apply HExprs. revert es. fix IHes 1. intros [|e es]; constructor.
    + apply IH.
    + apply IHes.
  - apply HAgg; [apply IH|]. destruct param as [p|]; simpl; [apply IH | exact I].
  - apply HBin; apply IH.
  - apply HCall. revert args. fix IHes 1. intros [|e es]; constructor.
    + apply IH.
    + apply IHes.
  - apply HMatrix.
  - apply HSub, IH.
  - apply HNum.
  - apply HParen, IH.
  - apply HStr.
  - apply HUnary, IH.
  - apply HVector.
Qed.

End NodeInduction.

(** Walking a list of trees with [collect] adds the names of each. *)
Lemma walkList_collect (es : list Node) (path : list Node) (s : gset string) :
  Forall (λ e, ∀ path s, Walk collect e path s = (names e ∪ s, None)) es →
  walkList (Walk collect) es path s = (⋃ (names <$> es) ∪ s, None).
Proof.
  intros H. revert s. induction H as [|e es He Hes IH]; intros s; simpl.
  - f_equal. set_solver.
  - rewrite He, IH. f_equal. set_solver.
Qed.

(** [collect] never fails, so the walk visits the whole tree and the
    captured set ends up with the names of all its selectors. *)
Lemma Walk_collect (n : Node) (path : list Node) (s : gset string) :
  Walk collect n path s = (names n ∪ s, None).
Proof.
  revert path s. induction n using Node_induction; intros path s; simpl.
  - by rewrite IHn.
  - by rewrite walkList_collect.
  - destruct param as [p|].
    + simpl in H. rewrite H, IHn. f_equal. set_solver.
    + rewrite IHn. f_equal. set_solver.
  - rewrite IHn1, IHn2. f_equal. set_solver.
  - by rewrite walkList_collect.
  - case_decide; simpl; f_equal; set_solver.
  - by rewrite IHn.
  - f_equal. set_solver.
  - by rewrite IHn.
  - f_equal. set_solver.
  - by rewrite IHn.
  - case_decide; simpl; f_equal; set_solver.
Qed.

Lemma Inspect_collect (expr : Node) : Inspect collect expr ∅ = names expr.
Proof. unfold Inspect. rewrite Walk_collect. simpl. set_solver. Qed.

(** The walk agrees with its unfolding at an [Expressions] node, which
    the [Call] case relies on. *)
Lemma Walk_Call_args {S : Type} (v : inspector S) (f : string) (args path : list Node) (s : S) :
  Walk v (Call f args) path s =
  match v (Some (Call f args)) path s with
  | (s, Some err) => (s, Some err)
  | (s, None) =>
    match Walk v (Expressions args) (path ++ [Call f args]) s with
    | (s, Some err) => (s, Some err)
    | (s, None) => v None [] s
    end
  end.
Proof.
  simpl. destruct (v (Some (Call f args)) path s) as [s1 [err|]]; [done|].
  destruct (v (Some (Expressions args)) _ s1) as [s2 [err|]]; [done|].
  destruct (walkList _ _ _ s2) as [s3 [err|]]; [done|].
  by destruct (v None [] s3) as [s4 [err|]].
Qed.

Lemma names_child (c n : Node) : c ∈ children n → names c ⊆ names n.
Proof.
  destruct n; simpl; intros Hc; try set_solver.
  - intros k Hk. apply elem_of_union_list. exists (names c). split; [|done].
    apply list_elem_of_fmap. eauto.
  - destruct param; simpl in Hc; set_solver.
Qed.

Lemma names_selector (n : Node) (k : string) :
  selectorName n = Some k → k ≠ "" → k ∈ names n.
Proof.
  destruct n; simpl; try discriminate; intros [= ->] Hk;
    case_decide; set_solver.
Qed.

Lemma subnode_trans (a b c : Node) : subnode a b → subnode b c → subnode a c.
Proof.
  intros Hab Hbc. induction Hbc as [|m c n Hc Hmc IH]; [done|].
  eapply subnode_below; eauto.
Qed.

Lemma subnode_child (c n : Node) : c ∈ children n → subnode c n.
Proof. intros H. eapply subnode_below; [done | constructor]. Qed.

Lemma selects_below (c n : Node) (k : string) :
  c ∈ children n → selects c k → selects n k.
Proof.
  intros Hc (Hk & m & Hm & Hs). split; [done|]. exists m. split; [|done].
  eapply subnode_trans; [done | by apply subnode_child].
Qed.

(** [names] is exactly the set of non-empty names of the selector nodes
    of the tree. *)
Lemma names_spec (n : Node) (k : string) : k ∈ names n ↔ selects n k.
Proof.
  split.
  - revert k. induction n using Node_induction; simpl; intros k Hk.
    + eapply selects_below; [|by apply IHn]. set_solver.
    + apply elem_of_union_list in Hk as (X & HX & Hk).
      apply list_elem_of_fmap in HX as (e & -> & He).
      rewrite Forall_forall in H. eapply selects_below; [exact He | by apply H].
    + apply elem_of_union in Hk as [Hk|Hk].
      * eapply selects_below; [|by apply IHn]. set_solver.
      * destruct param as [p|]; [|set_solver].
        eapply selects_below; [|by apply H]. simpl. set_solver.
    + apply elem_of_union in Hk as [Hk|Hk].
      * eapply selects_below; [|by apply IHn1]. set_solver.
      * eapply selects_below; [|by apply IHn2]. set_solver.
    + apply elem_of_union_list in Hk as (X & HX & Hk).
      apply list_elem_of_fmap in HX as (e & -> & He).
      rewrite Forall_forall in H.
      apply (selects_below (Expressions args)); [set_solver|].
      eapply selects_below; [exact He | by apply H].
    + case_decide; [set_solver|]. apply elem_of_singleton in Hk as ->.
      split; [done|]. eexists. split; [constructor|done].
    + eapply selects_below; [|by apply IHn]. set_solver.
    + set_solver.
    + eapply selects_below; [|by apply IHn]. set_solver.
    + set_solver.
    + eapply selects_below; [|by apply IHn]. set_solver.
    + case_decide; [set_solver|]. apply elem_of_singleton in Hk as ->.
      split; [done|]. eexists. split; [constructor|done].
  - intros (Hk & m & Hsub & Hsel).
    induction Hsub as [n|m c n Hc Hmc IH].
    + by apply names_selector.
    + by apply (names_child c n Hc), IH.
Qed.

Lemma sum_list_positive {A : Type} (f : A → nat) (l : list A) :
  1 ≤ sum_list (f <$> l) → ∃ x, x ∈ l ∧ 1 ≤ f x.
Proof.
  induction l as [|x l IH]; csimpl; [lia|]. intros H.
  destruct (decide (1 ≤ f x)) as [H1|H1].
  - exists x. split; [left | done].
  - destruct IH as (y & Hy & Hfy); [lia|]. exists y. split; [by right | done].
Qed.

(** A name that some selector of the tree carries is in [names]. *)
Lemma refCount_names (M : string) (n : Node) :
  M ≠ "" → 1 ≤ refCount M n → M ∈ names n.
Proof.
  intros HM. induction n using Node_induction; simpl; intros Hc; try (by auto); try lia.
  - apply sum_list_positive in Hc as (e & He & Hc).
    rewrite Forall_forall in H. apply elem_of_union_list.
    exists (names e). split; [apply list_elem_of_fmap; eauto | auto].
  - destruct (decide (1 ≤ refCount M n)) as [H1|H1]; [set_solver|].
    destruct param as [p|]; [|lia].
    apply elem_of_union_r, H. lia.
  - destruct (decide (1 ≤ refCount M n1)) as [H1|H1]; [set_solver|].
    apply elem_of_union_r, IHn2. lia.
  - apply sum_list_positive in Hc as (e & He & Hc).
    rewrite Forall_forall in H. apply elem_of_union_list.
    exists (names e). split; [apply list_elem_of_fmap; eauto | auto].
  - case_decide; [subst|lia]. case_decide; set_solver.
  - case_decide; [subst|lia]. case_decide; set_solver.
Qed.

(** ** [getMetrics] *)

Lemma getMetrics_parsed (E : Env) (rule : string) (expr : Node) (st : State) :
  promql_ParseExpr E rule = inr expr →
  getMetrics E rule st = ((map_range E (ranges st) (names expr), None), tickRange st).
Proof. intros H. unfold getMetrics. by rewrite H, Inspect_collect. Qed.

Lemma getMetrics_failed (E : Env) (rule : string) (err : error) (st : State) :
  promql_ParseExpr E rule = inl err →
  getMetrics E rule st = (([], Some err), st).
Proof. intros H. unfold getMetrics. by rewrite H. Qed.

Lemma range_NoDup (E : Env) (n : nat) (m : gset string) :
  range_ok E → NoDup (map_range E n m).
Proof. intros H. rewrite (H n m). apply NoDup_elements. Qed.

Lemma range_elem_of (E : Env) (n : nat) (m : gset string) (k : string) :
  range_ok E → k ∈ map_range E n m ↔ k ∈ m.
Proof. intros H. rewrite (H n m). apply elem_of_elements. Qed.

Lemma filter_eq_absent (l : list string) (M : string) :
  M ∉ l → filter (λ k, k = M) l = [].
Proof.
  induction l as [|x l IH]; [done|]. intros HM.
  apply not_elem_of_cons in HM as [Hne HM].
  rewrite filter_cons_False by congruence. by apply IH.
Qed.

Lemma NoDup_filter_eq_length (l : list string) (M : string) :
  NoDup l → M ∈ l → length (filter (λ k, k = M) l) = 1.
Proof.
  induction 1 as [|x l Hx Hl IH]; intros HM; [by apply elem_of_nil in HM|].
  rewrite filter_cons. destruct (decide (x = M)) as [->|Hne].
  - by rewrite filter_eq_absent.
  - apply elem_of_cons in HM as [->|HM]; [done|]. by apply IH.
Qed.

Lemma ascending_ok (rs : error + RulesResult)
    (srv : list ApiCall → SeriesRequest → SeriesResponse) :
  range_ok (Demo.env rs srv Demo.ascending).
Proof. intros n m. reflexivity. Qed.

Lemma descending_ok (rs : error + RulesResult)
    (srv : list ApiCall → SeriesRequest → SeriesResponse) :
  range_ok (Demo.env rs srv Demo.descending).
Proof. intros n m. apply reverse_Permutation. Qed.

(** C2: when the expression of a rule has N >= 1 selector nodes with the
    (non-empty) name M, the slice returned by [getMetrics] has no
    duplicates and holds M exactly once, whatever N is. *)
Theorem getMetrics_name_once (E : Env) (rule : string) (expr : Node)
    (M : string) (N : nat) (st : State) :
  range_ok E →
  promql_ParseExpr E rule = inr expr →
  M ≠ "" →
  refCount M expr = N →
  1 ≤ N →
  ∃ ret, fst (getMetrics E rule st) = (ret, None) ∧ NoDup ret ∧
         length (filter (λ k, k = M) ret) = 1.
Proof.
  intros Hr Hp HM <- HN. rewrite (getMetrics_parsed _ _ _ _ Hp). simpl.
  eexists. split; [done|]. split; [by apply range_NoDup|].
  apply NoDup_filter_eq_length; [by apply range_NoDup|].
  apply range_elem_of; [done|]. by apply refCount_names.
Qed.

Lemma getMetrics_name_once_witness :
  ∃ ret, fst (getMetrics Demo.upDescending
                "sum(up) / count_over_time(up[1h:])" initState) = (ret, None) ∧
         NoDup ret ∧ length (filter (λ k, k = "up") ret) = 1.
Proof.
  eapply (getMetrics_name_once _ _ _ "up" 2).
  - apply descending_ok.
  - reflexivity.
  - discriminate.
  - reflexivity.
  - lia.
Defined.

(** C3: the slice returned by [getMetrics] holds exactly the non-empty
    [Name]s of the instantaneous and range selector nodes that occur
    anywhere in the parsed tree; a selector with an empty [Name] and a
    node of any other kind add nothing. *)
Theorem getMetrics_exactly_selector_names (E : Env) (rule : string)
    (expr : Node) (st : State) :
  range_ok E →
  promql_ParseExpr E rule = inr expr →
  ∃ ret, fst (getMetrics E rule st) = (ret, None) ∧
    ∀ k, k ∈ ret ↔ k ≠ "" ∧ ∃ n, subnode n expr ∧ selectorName n = Some k.
Proof.
  intros Hr Hp. rewrite (getMetrics_parsed _ _ _ _ Hp). simpl.
  eexists. split; [done|]. intros k.
  rewrite range_elem_of by done. apply names_spec.
Qed.

Lemma getMetrics_exactly_selector_names_witness :
  ∃ ret, fst (getMetrics Demo.upAscending
                "{__name__='up'}" initState) = (ret, None) ∧
    ∀ k, k ∈ ret ↔ k ≠ "" ∧
      ∃ n, subnode n (VectorSelector "" 0 [Demo.nameIs "up"]) ∧ selectorName n = Some k.
Proof.
  apply getMetrics_exactly_selector_names.
  - apply ascending_ok.
  - reflexivity.
Defined.

(** ** [getRules] *)

Lemma fold_ruleQuery (rs : list Rule) (queries : list string) :
  fold_left ruleQuery rs queries = queries ++ omap queryOf rs.
Proof.
  revert queries. induction rs as [|r rs IH]; intros queries; simpl.
  - by rewrite app_nil_r.
  - rewrite IH. destruct r; simpl; by rewrite <- ?app_assoc.
Qed.

Lemma fold_groupQueries (gs : list RuleGroup) (queries : list string) :
  fold_left groupQueries gs queries =
  queries ++ concat (map (λ g, omap queryOf (Rules g)) gs).
Proof.
  revert queries. induction gs as [|g gs IH]; intros queries; simpl.
  - by rewrite app_nil_r.
  - rewrite IH. unfold groupQueries. by rewrite fold_ruleQuery, <- app_assoc.
Qed.

Lemma getRules_listed (E : Env) (st : State) (res : RulesResult) :
  api_Rules E = inr res →
  getRules E st = ((listRuleQueries res, None), logCall RulesCall st).
Proof.
  intros H. unfold getRules. rewrite H. by rewrite fold_groupQueries.
Qed.



(** ** [metricExists] *)

(** The three ways a call of [metricExists] can go. *)
Lemma metricExists_cases (E : Env) (name : string) (st : State) :
  (∃ b, metrics st !! name = Some b ∧ metricExists E name st = ((b, None), st)) ∨
  (∃ err, metrics st !! name = None ∧
     api_Series E (calls st) (seriesRequest E name st) = inl err ∧
     metricExists E name st =
       ((false, Some (Wrapf err "failed to get metric %q" [name])),
        logCall (SeriesCall (seriesRequest E name st) (inl err)) st)) ∨
  (∃ lset w, metrics st !! name = None ∧
     api_Series E (calls st) (seriesRequest E name st) = inr (lset, w) ∧
     metricExists E name st =
       ((verdict lset, None),
        setMetrics (<[name := verdict lset]> (metrics st))
          (logCall (SeriesCall (seriesRequest E name st) (inr (lset, w))) st))).
Proof.
  unfold metricExists. destruct (metrics st !! name) as [b|] eqn:Hm.
  - left. by exists b.
  - right. destruct (api_Series E (calls st) (seriesRequest E name st))
      as [err|[lset w]] eqn:Hs.
    + left. by exists err.
    + right. exists lset, w. repeat split. simpl.
      by rewrite lookup_insert_eq.
Qed.

Lemma verdict_nonempty (lset : list LabelSet) : verdict lset = bool_decide (lset ≠ []).
Proof.
  unfold verdict. apply bool_decide_ext. destruct lset; simpl; split; intros H;
    try lia; try done.
Qed.

(** C7: for a name that is not in the memo table, [metricExists] sends
    one series query for exactly that name, from the zero time to the
    clock's reading at the call; when the server answers, the result is
    [true] exactly when the answer holds at least one series, and that
    result is stored in the table under the name. *)
Theorem metricExists_queries_backend (E : Env) (name : string) (st : State) :
  metrics st !! name = None →
  let req := mkSeriesRequest [name] zeroTime (time_Now E (calls st)) in
  let resp := api_Series E (calls st) req in
  calls (snd (metricExists E name st)) = calls st ++ [SeriesCall req resp] ∧
  ∀ lset w, resp = inr (lset, w) →
    fst (metricExists E name st) = (bool_decide (lset ≠ []), None) ∧
    metrics (snd (metricExists E name st)) !! name = Some (bool_decide (lset ≠ [])).
Proof.
  intros Hm req resp.
  destruct (metricExists_cases E name st) as
    [(b & Hb & _)|[(err & _ & Hs & ->)|(lset & w & _ & Hs & ->)]].
  - congruence.
  - simpl. split; [by subst resp req; unfold seriesRequest in Hs; rewrite Hs|].
    intros lset w Hr. subst resp req. unfold seriesRequest in Hs. congruence.
  - simpl. split; [by subst resp req; unfold seriesRequest in Hs; rewrite Hs|].
    intros lset' w' Hr. subst resp req. unfold seriesRequest in Hs.
    rewrite Hs in Hr. injection Hr as <- <-.
    rewrite lookup_insert_eq. by rewrite verdict_nonempty.
Qed.

Lemma metricExists_queries_backend_witness :
  calls (snd (metricExists Demo.upAscending "up" initState)) =
    [SeriesCall (mkSeriesRequest ["up"] zeroTime 1557000000%Z) (inr (Demo.oneSeries, []))] ∧
  fst (metricExists Demo.upAscending "up" initState) = (true, None).
Proof.
  destruct (metricExists_queries_backend Demo.upAscending "up" initState eq_refl)
    as [Hc Hr].
  split; [exact Hc|]. exact (proj1 (Hr Demo.oneSeries [] eq_refl)).
Defined.

Lemma metricExists_other (E : Env) (n name : string) (st : State) :
  name ≠ n →
  metrics (snd (metricExists E n st)) !! name = metrics st !! name.
Proof.
  intros Hne.
  destruct (metricExists_cases E n st) as
    [(b & _ & ->)|[(err & _ & _ & ->)|(lset & w & _ & _ & ->)]]; simpl; try done.
  by rewrite lookup_insert_ne.
Qed.

Lemma existsAll_other (E : Env) (ns : list string) (name : string) (st : State) :
  name ∉ ns →
  metrics (existsAll E ns st) !! name = metrics st !! name.
Proof.
  revert st. induction ns as [|n ns IH]; intros st Hn; [done|].
  apply not_elem_of_cons in Hn as [Hne Hn]. unfold existsAll in *. simpl.
  rewrite IH by done. by apply metricExists_other.
Qed.

(** C4: when the server fails the query for a name, [metricExists]
    returns the (wrapped) error and leaves the memo table as it was;
    whatever other names are looked up in between, the next call for the
    name sends a query again, and when that one is answered its result
    is returned and stored. *)
Theorem failed_check_is_retried (E : Env) (name : string) (st : State)
    (err : error) (others : list string) :
  metrics st !! name = None →
  api_Series E (calls st) (seriesRequest E name st) = inl err →
  name ∉ others →
  let r1 := metricExists E name st in
  let st2 := existsAll E others (snd r1) in
  let r2 := metricExists E name st2 in
  let resp := api_Series E (calls st2) (seriesRequest E name st2) in
  fst r1 = (false, Some (Wrapf err "failed to get metric %q" [name])) ∧
  metrics (snd r1) = metrics st ∧
  calls (snd r2) = calls st2 ++ [SeriesCall (seriesRequest E name st2) resp] ∧
  ∀ lset w, resp = inr (lset, w) →
    fst r2 = (verdict lset, None) ∧ metrics (snd r2) !! name = Some (verdict lset).
Proof.
  intros Hm Hs Ho r1 st2 r2 resp.
  assert (r1 = ((false, Some (Wrapf err "failed to get metric %q" [name])),
                logCall (SeriesCall (seriesRequest E name st) (inl err)) st)) as Hr1.
  { subst r1. destruct (metricExists_cases E name st) as
      [(b & Hb & _)|[(err' & _ & Hs' & ->)|(lset & w & _ & Hs' & _)]]; congruence. }
  assert (metrics st2 !! name = None) as Hm2.
  { subst st2. rewrite existsAll_other by done. by rewrite Hr1. }
  split; [by rewrite Hr1|]. split; [by rewrite Hr1|].
  subst r2 resp. destruct (metricExists_cases E name st2) as
    [(b & Hb & _)|[(err' & _ & Hs' & ->)|(lset & w & _ & Hs' & ->)]].
  - congruence.
  - simpl. rewrite Hs'. split; [done|]. intros; discriminate.
  - simpl. rewrite Hs'. split; [done|]. intros lset' w' [= <- <-].
    by rewrite lookup_insert_eq.
Qed.

Lemma failed_check_is_retried_witness :
  fst (metricExists Demo.flaky "up" initState) =
    (false, Some (Wrapf (ExternalError "server error") "failed to get metric %q" ["up"])) ∧
  metrics (snd (metricExists Demo.flaky "up" initState)) = ∅ ∧
  fst (metricExists Demo.flaky "up"
         (existsAll Demo.flaky ["foo"] (snd (metricExists Demo.flaky "up" initState)))) =
    (true, None) ∧
  metrics (snd (metricExists Demo.flaky "up"
         (existsAll Demo.flaky ["foo"] (snd (metricExists Demo.flaky "up" initState)))))
    !! "up" = Some true.
Proof.
  destruct (failed_check_is_retried Demo.flaky "up" initState
              (ExternalError "server error") ["foo"] eq_refl eq_refl)
    as (H1 & H2 & _ & H4).
  { by apply not_elem_of_cons; split; [|apply not_elem_of_nil]. }
  destruct (H4 Demo.oneSeries [] eq_refl) as [H5 H6].
  split; [exact H1|]. split; [exact H2|]. split; [exact H5 | exact H6].
Defined.

(** ** Configuration *)

(** C8: when the address is empty, does not parse, or parses to a scheme
    other than [http] and [https], [run] returns an error and leaves the
    state untouched, so that no call reaches the server, and [main]
    exits with status 2. *)
Theorem bad_address_aborts (E : Env) (promURL : string) (st : State) :
  promURL = "" ∨
  (∃ err, url_Parse E promURL = inl err) ∨
  (∃ u, url_Parse E promURL = inr u ∧ Scheme u ≠ "http" ∧ Scheme u ≠ "https") →
  (∃ err, run E promURL st = (Some err, st)) ∧
  fst (main E false promURL) = 2%Z ∧
  calls (snd (main E false promURL)) = [].
Proof.
  intros H.
  assert (∀ st, ∃ err, run E promURL st = (Some err, st)) as Hrun.
  { intros st'. unfold run. destruct H as [->|[[err Hp]|(u & Hp & Hs)]].
    - by eexists.
    - case_decide; [by eexists|]. rewrite Hp. by eexists.
    - case_decide; [by eexists|]. rewrite Hp. rewrite decide_True by done.
      by eexists. }
  split; [apply Hrun|]. unfold main. destruct (Hrun initState) as [err ->].
  done.
Qed.

Lemma bad_address_aborts_witness :
  (∃ err, run Demo.upAscending "ftp://x" initState = (Some err, initState)) ∧
  fst (main Demo.upAscending false "ftp://x") = 2%Z ∧
  calls (snd (main Demo.upAscending false "ftp://x")) = [].
Proof.
  apply bad_address_aborts. right. right.
  exists (mkURL "ftp" "" "//x"). split; [reflexivity|]. split; discriminate.
Defined.

(** ** The memo table and the log of calls *)

Lemma seriesFor_request (E : Env) (n name : string) (st : State) (resp : SeriesResponse) :
  seriesFor name (SeriesCall (seriesRequest E n st) resp) = true → name = n.
Proof. simpl. intros H. apply bool_decide_eq_true in H. congruence. Qed.

Lemma seriesFor_request_same (E : Env) (n : string) (st : State) (resp : SeriesResponse) :
  seriesFor n (SeriesCall (seriesRequest E n st) resp) = true.
Proof. simpl. by apply bool_decide_eq_true. Qed.

Lemma snoc_split {A : Type} (l l1 l2 : list A) (c c1 : A) :
  l ++ [c] = l1 ++ c1 :: l2 →
  (l2 = [] ∧ l = l1 ∧ c = c1) ∨ (∃ l2', l2 = l2' ++ [c] ∧ l = l1 ++ c1 :: l2').
Proof.
  destruct l2 as [|x l2 _] using rev_ind; intros H.
  - left. apply app_inj_tail in H as [-> ->]. done.
  - right. exists l2. rewrite app_comm_cons, app_assoc in H.
    apply app_inj_tail in H as [-> ->]. done.
Qed.

Lemma consistent_init : consistent initState.
Proof.
  split; simpl.
  - intros name c Hc. by apply elem_of_nil in Hc.
  - intros name l1 c1 l2 c2 H. by destruct l1.
  - intros name b H. by rewrite lookup_empty in H.
Qed.

(** Logging a call that is not an answered series query for a name
    outside the table keeps the state consistent. *)
Lemma consistent_logCall (st : State) (c : ApiCall) :
  consistent st →
  (∀ name, seriesFor name c = true → failed c = true ∧ metrics st !! name = None) →
  consistent (logCall c st).
Proof.
  intros [H1 H2 H3] Hc. split; simpl.
  - intros name c' Hin Hs Hf. apply elem_of_app in Hin as [Hin|Hin]; [eauto|].
    apply list_elem_of_singleton in Hin as ->. destruct (Hc name Hs). congruence.
  - intros name l1 c1 l2 c2 Heq Hin Hs1 Hs2.
    apply snoc_split in Heq as [(-> & _)|(l2' & -> & Heq)].
    { by apply elem_of_nil in Hin. }
    apply elem_of_app in Hin as [Hin|Hin]; [eauto|].
    apply list_elem_of_singleton in Hin as ->.
    destruct (Hc name Hs2) as [_ Hnone].
    destruct (failed c1) eqn:Hf; [done|].
    destruct (H1 name c1) as [b Hb]; [|done|done|congruence].
    rewrite Heq. apply elem_of_app. right. left.
  - intros name b Hb. destruct (H3 name b Hb) as (req & lset & w & Hin & ? & ?).
    exists req, lset, w. split; [|done]. apply elem_of_app. by left.
Qed.

Lemma consistent_metricExists (E : Env) (name : string) (st : State) :
  consistent st → consistent (snd (metricExists E name st)).
Proof.
  intros Hst.
  destruct (metricExists_cases E name st) as
    [(b & _ & ->)|[(err & Hm & _ & ->)|(lset & w & Hm & _ & ->)]]; simpl.
  - done.
  - apply consistent_logCall; [done|]. intros n Hn.
    apply seriesFor_request in Hn as ->. done.
  - destruct Hst as [H1 H2 H3]. split; simpl.
    + intros n c Hin Hs Hf. apply elem_of_app in Hin as [Hin|Hin].
      * destruct (H1 n c Hin Hs Hf) as [b Hb].
        destruct (decide (name = n)) as [->|Hne]; [congruence|].
        rewrite lookup_insert_ne by done. eauto.
      * apply list_elem_of_singleton in Hin as ->.
        apply seriesFor_request in Hs as ->. rewrite lookup_insert_eq. eauto.
    + intros n l1 c1 l2 c2 Heq Hin Hs1 Hs2.
      apply snoc_split in Heq as [(-> & _)|(l2' & -> & Heq)].
      { by apply elem_of_nil in Hin. }
      apply elem_of_app in Hin as [Hin|Hin]; [eauto|].
      apply list_elem_of_singleton in Hin as ->.
      apply seriesFor_request in Hs2 as ->.
      destruct (failed c1) eqn:Hf; [done|].
      destruct (H1 name c1) as [b Hb]; [|done|done|congruence].
      rewrite Heq. apply elem_of_app. right. left.
    + intros n b Hb. destruct (decide (name = n)) as [->|Hne].
      * rewrite lookup_insert_eq in Hb. injection Hb as <-.
        exists (seriesRequest E n st), lset, w. split; [|done].
        apply elem_of_app. right. left.
      * rewrite lookup_insert_ne in Hb by done.
        destruct (H3 n b Hb) as (req & lset' & w' & Hin & ? & ?).
        exists req, lset', w'. split; [|done]. apply elem_of_app. by left.
Qed.

Lemma reachable_consistent (E : Env) (st : State) : reachable E st → consistent st.
Proof.
  induction 1 as [|st _ IH|st _ IH|o st _ IH|name st _ IH].
  - apply consistent_init.
  - apply consistent_logCall; [done|]. intros name Hn. discriminate.
  - by destruct IH.
  - by destruct IH.
  - by apply consistent_metricExists.
Qed.

(** *** Every state of a run is reachable *)

(** The three ways one turn of the inner loop can go. *)
Lemma checkMetric_cases (E : Env) (rule m : string) (st : State) :
  (∃ b : bool, metrics st !! m = Some b ∧
     checkMetric E rule st m = if b then st else print (finding rule m) st) ∨
  (∃ err, metrics st !! m = None ∧
     api_Series E (calls st) (seriesRequest E m st) = inl err ∧
     checkMetric E rule st m =
       print (Fprintln (Wrapf err "failed to get metric %q" [m]))
         (logCall (SeriesCall (seriesRequest E m st) (inl err)) st)) ∨
  (∃ lset w, metrics st !! m = None ∧
     api_Series E (calls st) (seriesRequest E m st) = inr (lset, w) ∧
     checkMetric E rule st m =
       let st' := setMetrics (<[m := verdict lset]> (metrics st))
                    (logCall (SeriesCall (seriesRequest E m st) (inr (lset, w))) st) in
       if verdict lset then st' else print (finding rule m) st').
Proof.
  unfold checkMetric.
  destruct (metricExists_cases E m st) as
    [(b & Hm & ->)|[(err & Hm & Hs & ->)|(lset & w & Hm & Hs & ->)]].
  - left. by exists b.
  - right. left. by exists err.
  - right. right. by exists lset, w.
Qed.

Lemma reachable_checkMetric (E : Env) (rule m : string) (st : State) :
  reachable E st → reachable E (checkMetric E rule st m).
Proof.
  intros H. unfold checkMetric.
  pose proof (reach_exists E m st H) as H'.
  destruct (metricExists E m st) as [[found [err|]] st']; simpl in H'.
  - by constructor.
  - destruct found; [done | by constructor].
Qed.

Lemma reachable_checkMetrics (E : Env) (rule : string) (ms : list string) (st : State) :
  reachable E st → reachable E (fold_left (checkMetric E rule) ms st).
Proof.
  revert st. induction ms as [|m ms IH]; intros st H; simpl; [done|].
  by apply IH, reachable_checkMetric.
Qed.

Lemma reachable_lintRule (E : Env) (rule : string) (st : State) :
  reachable E st → reachable E (lintRule E st rule).
Proof.
  intros H. unfold lintRule, getMetrics.
  destruct (promql_ParseExpr E rule) as [err|expr].
  - by constructor.
  - apply reachable_checkMetrics. by constructor.
Qed.

Lemma reachable_lintRules (E : Env) (rules : list string) (st : State) :
  reachable E st → reachable E (fold_left (lintRule E) rules st).
Proof.
  revert st. induction rules as [|r rules IH]; intros st H; simpl; [done|].
  by apply IH, reachable_lintRule.
Qed.

Lemma reachable_existsAll (E : Env) (ns : list string) (st : State) :
  reachable E st → reachable E (existsAll E ns st).
Proof.
  revert st. induction ns as [|n ns IH]; intros st H; [done|].
  unfold existsAll in *. simpl. by apply IH, reach_exists.
Qed.

Lemma reachable_run (E : Env) (promURL : string) :
  reachable E (snd (run E promURL initState)).
Proof.
  unfold run. case_decide; [constructor|].
  destruct (url_Parse E promURL) as [err|u] eqn:Hp; [constructor|].
  case_decide; [constructor|]. unfold newRuleLinter. rewrite Hp.
  change (setMetrics ∅ initState) with initState.
  unfold getRules. destruct (api_Rules E) as [err|res]; simpl.
  - constructor. constructor.
  - apply reachable_lintRules. constructor. constructor.
Qed.

Lemma seriesCount_at_most_one (name : string) (cs : list ApiCall) :
  (∀ l1 c1 l2 c2, cs = l1 ++ c1 :: l2 → c2 ∈ l2 →
     seriesFor name c1 = true → seriesFor name c2 = true → failed c1 = true) →
  Forall (λ c, failed c = false) cs →
  seriesCount name cs ≤ 1.
Proof.
  unfold seriesCount. induction cs as [|c cs IH]; intros Hrep Hok; simpl; [lia|].
  apply Forall_cons in Hok as [Hc Hok].
  assert (length (List.filter (seriesFor name) cs) ≤ 1) as Hle.
  { apply IH; [|done]. intros l1 c1 l2 c2 -> Hin Hs1 Hs2.
    by apply (Hrep (c :: l1) c1 l2 c2). }
  destruct (seriesFor name c) eqn:Hs; [|done]. simpl.
  destruct (List.filter (seriesFor name) cs) as [|c2 l] eqn:Hf; [simpl; lia|].
  assert (In c2 (List.filter (seriesFor name) cs)) as Hin by (rewrite Hf; by left).
  apply filter_In in Hin as [Hin Hs2].
  assert (failed c = true); [|congruence].
  apply (Hrep [] c cs c2); [done| by apply list_elem_of_In |done|done].
Qed.

(** A server that fails makes the linter ask twice for the same name. *)
Lemma memo_retries_after_failure :
  ¬ seriesCount "up" (calls (snd (run Demo.down Demo.address initState))) ≤ 1.
Proof.
  assert (seriesCount "up" (calls (snd (run Demo.down Demo.address initState))) = 2)
    as -> by (vm_compute; reflexivity).
  lia.
Qed.

(** C1, amended: in the log of a run, followed by any further calls of
    [metricExists], a series query that is followed by another query for
    the same name was answered with an error; so at most one query per
    name is answered, and when no query fails at most one query per name
    is sent at all.  A name that is in the memo table is answered from
    the table, with the state (and so the log of calls) unchanged. *)
Theorem memo_at_most_one_answer (E : Env) (promURL : string) (ns : list string)
    (name : string) :
  let final := existsAll E ns (snd (run E promURL initState)) in
  (∀ l1 c1 l2 c2, calls final = l1 ++ c1 :: l2 → c2 ∈ l2 →
     seriesFor name c1 = true → seriesFor name c2 = true → failed c1 = true) ∧
  (Forall (λ c, failed c = false) (calls final) → seriesCount name (calls final) ≤ 1) ∧
  (∀ st b, metrics st !! name = Some b → metricExists E name st = ((b, None), st)).
Proof.
  intros final.
  assert (consistent final) as Hc.
  { apply (reachable_consistent E), reachable_existsAll, reachable_run. }
  split; [|split].
  - apply (repeated_failed _ Hc).
  - apply seriesCount_at_most_one, (repeated_failed _ Hc).
  - intros st b Hb. destruct (metricExists_cases E name st) as
      [(b' & Hb' & ->)|[(err & Hm & _)|(lset & w & Hm & _)]]; congruence.
Qed.

Lemma memo_at_most_one_answer_witness :
  seriesCount "up"
    (calls (existsAll Demo.upAscending ["up"; "up"]
              (snd (run Demo.upAscending Demo.address initState)))) ≤ 1 ∧
  metricExists Demo.upAscending "up"
    (existsAll Demo.upAscending ["up"; "up"]
       (snd (run Demo.upAscending Demo.address initState))) =
  ((true, None),
   existsAll Demo.upAscending ["up"; "up"]
     (snd (run Demo.upAscending Demo.address initState))).
Proof.
  destruct (memo_at_most_one_answer Demo.upAscending Demo.address ["up"; "up"] "up")
    as (_ & H2 & H3).
  split.
  - apply H2. vm_compute. repeat constructor.
  - apply H3. vm_compute. reflexivity.
Defined.

(** ** The driver *)

Lemma run_listed (E : Env) (promURL : string) (res : RulesResult) (st : State) :
  listed E promURL res →
  run E promURL st =
    (None, fold_left (lintRule E) (listRuleQueries res)
             (logCall RulesCall (setMetrics ∅ st))).
Proof.
  intros (Hne & (u & Hp & Hs) & Hr). unfold run.
  rewrite decide_False by done. rewrite Hp.
  rewrite decide_False by (destruct Hs as [-> | ->]; intros [? ?]; done).
  unfold newRuleLinter. rewrite Hp.
  by rewrite (getRules_listed _ _ _ Hr).
Qed.

Lemma extends_refl (st : State) : extends st st.
Proof. by split. Qed.

Lemma extends_trans (st1 st2 st3 : State) :
  extends st1 st2 → extends st2 st3 → extends st1 st3.
Proof. intros [H1 H2] [H3 H4]. split; eauto. Qed.

Lemma extends_print (o : Output) (st : State) : extends st (print o st).
Proof. split; [done|]. intros o' H. simpl. apply elem_of_app. by left. Qed.

Lemma extends_checkMetric (E : Env) (rule m : string) (st : State) :
  extends st (checkMetric E rule st m).
Proof.
  assert (∀ v c, extends st (setMetrics (<[m := v]> (metrics st)) (logCall c st)) ∨
                 metrics st !! m ≠ None) as Hins.
  { intros v c. destruct (metrics st !! m) eqn:Hm; [by right|]. left.
    split; [|done]. intros m' b Hb. simpl. rewrite lookup_insert_ne; [done|congruence]. }
  destruct (checkMetric_cases E rule m st) as
    [(b & _ & ->)|[(err & _ & _ & ->)|(lset & w & Hm & _ & ->)]].
  - destruct b; [apply extends_refl | apply extends_print].
  - eapply extends_trans; [|apply extends_print]. by split.
  - destruct (Hins (verdict lset)
      (SeriesCall (seriesRequest E m st) (inr (lset, w)))) as [Hext|]; [|done].
    simpl. destruct (verdict lset); [done|].
    eapply extends_trans; [done | apply extends_print].
Qed.

Lemma extends_checkMetrics (E : Env) (rule : string) (ms : list string) (st : State) :
  extends st (fold_left (checkMetric E rule) ms st).
Proof.
  revert st. induction ms as [|m ms IH]; intros st; simpl; [apply extends_refl|].
  eapply extends_trans; [apply extends_checkMetric | apply IH].
Qed.

Lemma extends_lintRule (E : Env) (rule : string) (st : State) :
  extends st (lintRule E st rule).
Proof.
  unfold lintRule, getMetrics. destruct (promql_ParseExpr E rule) as [err|expr].
  - apply extends_print.
  - eapply extends_trans; [|apply extends_checkMetrics]. by split.
Qed.

Lemma extends_lintRules (E : Env) (rules : list string) (st : State) :
  extends st (fold_left (lintRule E) rules st).
Proof.
  revert st. induction rules as [|r rules IH]; intros st; simpl; [apply extends_refl|].
  eapply extends_trans; [apply extends_lintRule | apply IH].
Qed.

(** One turn of the inner loop adds the [piece] of its metric. *)
Lemma checkMetric_piece (E : Env) (rule m : string) (st : State) :
  consistent st →
  ∃ c o, calls (checkMetric E rule st m) = calls st ++ c ∧
         stderr (checkMetric E rule st m) = stderr st ++ o ∧
         piece E rule m (calls st) c o.
Proof.
  intros Hc.
  destruct (checkMetric_cases E rule m st) as
    [(b & Hb & ->)|[(err & _ & Hs & ->)|(lset & w & _ & Hs & ->)]].
  - destruct (cached_answered _ Hc m b Hb) as (req & lset & w & Hin & Hreq & ->).
    exists [], (if verdict lset then [] else [finding rule m]).
    split_and!.
    + destruct (verdict lset); by rewrite app_nil_r.
    + destruct (verdict lset); [by rewrite app_nil_r | done].
    + left. split; [done|]. by exists req, lset, w.
  - exists [SeriesCall (seriesRequest E m st) (inl err)],
           [Fprintln (Wrapf err "failed to get metric %q" [m])].
    split_and!; [done | done |]. right. left.
    by exists (seriesRequest E m st), err.
  - exists [SeriesCall (seriesRequest E m st) (inr (lset, w))],
           (if verdict lset then [] else [finding rule m]).
    cbv zeta. split_and!.
    + by destruct (verdict lset).
    + destruct (verdict lset); [by rewrite app_nil_r | done].
    + right. right. by exists (seriesRequest E m st), lset, w.
Qed.

Lemma checkMetrics_pieces (E : Env) (rule : string) (ms : list string) (st : State) :
  reachable E st →
  ∃ cs os, calls (fold_left (checkMetric E rule) ms st) = calls st ++ cs ∧
           stderr (fold_left (checkMetric E rule) ms st) = stderr st ++ os ∧
           pieces E rule ms (calls st) cs os.
Proof.
  revert st. induction ms as [|m ms IH]; intros st Hst; simpl.
  - exists [], []. rewrite !app_nil_r. split_and!; [done | done | constructor].
  - destruct (checkMetric_piece E rule m st (reachable_consistent E st Hst))
      as (c & o & Hc & Ho & Hp).
    destruct (IH _ (reachable_checkMetric E rule m st Hst)) as (cs & os & Hcs & Hos & Hps).
    exists (c ++ cs), (o ++ os).
    split_and!; [by rewrite Hcs, Hc, app_assoc | by rewrite Hos, Ho, app_assoc |].
    constructor; [done|]. by rewrite <- Hc.
Qed.

Lemma lintRule_trace (E : Env) (rule : string) (st : State) :
  range_ok E →
  reachable E st →
  ∃ cs os, calls (lintRule E st rule) = calls st ++ cs ∧
           stderr (lintRule E st rule) = stderr st ++ os ∧
           ruleTrace E rule (calls st) cs os.
Proof.
  intros Hr Hst. unfold lintRule, getMetrics, ruleTrace.
  destruct (promql_ParseExpr E rule) as [err|expr].
  - exists [], [Fprintln err]. by rewrite app_nil_r.
  - rewrite Inspect_collect.
    destruct (checkMetrics_pieces E rule (map_range E (ranges st) (names expr))
                (tickRange st) (reach_range E st Hst)) as (cs & os & Hcs & Hos & Hps).
    exists cs, os. split_and!; [done | done |].
    exists (map_range E (ranges st) (names expr)). split; [apply Hr | done].
Qed.

Lemma lintRules_trace (E : Env) (rules : list string) (st : State) :
  range_ok E →
  reachable E st →
  ∃ cs os, calls (fold_left (lintRule E) rules st) = calls st ++ cs ∧
           stderr (fold_left (lintRule E) rules st) = stderr st ++ os ∧
           runTrace E rules (calls st) cs os.
Proof.
  intros Hr. revert st. induction rules as [|r rules IH]; intros st Hst; simpl.
  - exists [], []. rewrite !app_nil_r. split_and!; [done | done | constructor].
  - destruct (lintRule_trace E r st Hr Hst) as (c & o & Hc & Ho & Ht).
    destruct (IH _ (reachable_lintRule E r st Hst)) as (cs & os & Hcs & Hos & Hts).
    exists (c ++ cs), (o ++ os).
    split_and!; [by rewrite Hcs, Hc, app_assoc | by rewrite Hos, Ho, app_assoc |].
    constructor; [done|]. by rewrite <- Hc.
Qed.

(** C5: once the address is accepted and the listing has succeeded,
    [run] returns no error and [main] exits with status 0, whatever
    fails on the way, and every listed rule is dealt with in listing
    order, the ones after a failure included.  The calls after the
    listing and the lines printed are, rule after rule: for a rule that
    does not parse, no call and its parse error; for a rule that parses,
    one check for each of its metrics, the ones after a failed check
    included, where a check is settled from an earlier answer in the
    log, or sends one query whose error, if the server fails it, is the
    line printed, and whose answer otherwise decides on the finding. *)
Theorem run_continues_after_failures (E : Env) (promURL : string)
    (res : RulesResult) (st : State) :
  range_ok E →
  listed E promURL res →
  fst (run E promURL st) = None ∧
  fst (main E false promURL) = 0%Z ∧
  ∃ cs, calls (snd (run E promURL initState)) = RulesCall :: cs ∧
        runTrace E (listRuleQueries res) [RulesCall] cs
          (stderr (snd (run E promURL initState))).
Proof.
  intros Hr Hl. split; [|split].
  - by rewrite (run_listed _ _ _ _ Hl).
  - unfold main. by rewrite (run_listed _ _ _ _ Hl).
  - rewrite (run_listed _ _ _ _ Hl). simpl.
    destruct (lintRules_trace E (listRuleQueries res)
                (logCall RulesCall (setMetrics ∅ initState)) Hr)
      as (cs & os & Hcs & Hos & Ht).
    { constructor. constructor. }
    exists cs. split; [by rewrite Hcs|]. by rewrite Hos.
Qed.

Lemma listed_demo (rs : RulesResult)
    (srv : list ApiCall → SeriesRequest → SeriesResponse)
    (order : nat → gset string → list string) :
  listed (Demo.env (inr rs) srv order) Demo.address rs.
Proof.
  split; [discriminate|]. split; [|done].
  exists (mkURL "http" "" "//localhost:9090"). split; [reflexivity | by left].
Qed.

Lemma run_continues_after_failures_witness :
  fst (run Demo.flaky Demo.address initState) = None ∧
  fst (main Demo.flaky false Demo.address) = 0%Z ∧
  ∃ cs, calls (snd (run Demo.flaky Demo.address initState)) = RulesCall :: cs ∧
        runTrace Demo.flaky
          ["rate(http_requests_total[5m])"; "up == 0"; "foo + bar"; "sum("]
          [RulesCall] cs (stderr (snd (run Demo.flaky Demo.address initState))).
Proof.
  exact (run_continues_after_failures Demo.flaky Demo.address _ initState
           (ascending_ok _ _) (listed_demo _ _ _)).
Defined.

(** ** Findings *)

Lemma findingRule_same (M rule : string) : findingRule M (finding rule M) = Some rule.
Proof. unfold finding. simpl. by rewrite decide_True. Qed.

Lemma findingRule_other (M rule m : string) : m ≠ M → findingRule M (finding rule m) = None.
Proof. intros H. unfold finding. simpl. rewrite decide_False; [done|]. by intros [_ ?]. Qed.

Lemma findingsFor_print (M : string) (o : Output) (st : State) :
  findingsFor M (stderr (print o st)) =
  findingsFor M (stderr st) ++ from_option (λ r, [r]) [] (findingRule M o).
Proof.
  unfold findingsFor. simpl. rewrite omap_app. simpl. by destruct (findingRule M o).
Qed.

Lemma seriesCount_snoc (name : string) (cs : list ApiCall) (c : ApiCall) :
  seriesCount name (cs ++ [c]) = seriesCount name cs + (if seriesFor name c then 1 else 0).
Proof.
  unfold seriesCount. rewrite List.filter_app, length_app. simpl.
  by destruct (seriesFor name c).
Qed.

Lemma seriesFor_other (E : Env) (m M : string) (st : State) (resp : SeriesResponse) :
  m ≠ M → seriesFor M (SeriesCall (seriesRequest E m st) resp) = false.
Proof. intros H. simpl. apply bool_decide_eq_false. congruence. Qed.

(** One turn of the inner loop, as far as a missing metric [M] goes. *)
Lemma checkMetric_missing (E : Env) (M rule m : string) (st : State) :
  noSeries E M →
  unresolvedOrMissing M st →
  let st' := checkMetric E rule st m in
  unresolvedOrMissing M st' ∧
  findingsFor M (stderr st') =
    findingsFor M (stderr st) ++ (if decide (m = M) then [rule] else []) ∧
  (m = M → metrics st' !! M = Some false).
Proof.
  intros HM Hinv st'. subst st'.
  destruct (checkMetric_cases E rule m st) as
    [(b & Hb & ->)|[(err & Hm & Hs & ->)|(lset & w & Hm & Hs & ->)]].
  - destruct (decide (m = M)) as [->|Hne].
    + assert (b = false) as -> by (destruct Hinv as [[? _]|[? _]]; congruence).
      rewrite findingsFor_print, findingRule_same. done.
    + destruct b; [by rewrite app_nil_r|].
      rewrite findingsFor_print, findingRule_other by done. simpl. by rewrite app_nil_r.
  - destruct (decide (m = M)) as [->|Hne].
    + destruct (HM (calls st) (seriesRequest E M st) eq_refl) as [w Hw]. congruence.
    + rewrite findingsFor_print. simpl. rewrite app_nil_r.
      split; [|done]. unfold unresolvedOrMissing. simpl.
      rewrite seriesCount_snoc, seriesFor_other by done. by rewrite Nat.add_0_r.
  - destruct (decide (m = M)) as [->|Hne].
    + destruct (HM (calls st) (seriesRequest E M st) eq_refl) as [w' Hw].
      rewrite Hw in Hs. injection Hs as <- <-.
      change (verdict []) with false. cbv zeta iota.
      rewrite findingsFor_print, findingRule_same. simpl.
      rewrite lookup_insert_eq. split; [|done]. right. simpl.
      rewrite lookup_insert_eq, seriesCount_snoc, seriesFor_request_same.
      destruct Hinv as [[_ ->]|[? _]]; [done|congruence].
    + assert (unresolvedOrMissing M
        (setMetrics (<[m:=verdict lset]> (metrics st))
           (logCall (SeriesCall (seriesRequest E m st) (inr (lset, w))) st))) as Hinv'.
      { unfold unresolvedOrMissing. simpl. rewrite lookup_insert_ne by done.
        rewrite seriesCount_snoc, seriesFor_other by done. by rewrite Nat.add_0_r. }
      cbv zeta. destruct (verdict lset); [by rewrite app_nil_r|].
      rewrite findingsFor_print, findingRule_other by done. simpl. by rewrite app_nil_r.
Qed.

Lemma checkMetrics_missing (E : Env) (M rule : string) (ms : list string) (st : State) :
  noSeries E M →
  NoDup ms →
  unresolvedOrMissing M st →
  let st' := fold_left (checkMetric E rule) ms st in
  unresolvedOrMissing M st' ∧
  findingsFor M (stderr st') =
    findingsFor M (stderr st) ++ (if decide (M ∈ ms) then [rule] else []) ∧
  (M ∈ ms → metrics st' !! M = Some false).
Proof.
  intros HM Hnd. revert st. induction Hnd as [|m ms Hm Hnd IH]; intros st Hinv; simpl.
  - rewrite app_nil_r.
    split; [done|]. split; [done|]. intros H. by apply elem_of_nil in H.
  - destruct (checkMetric_missing E M rule m st HM Hinv) as (Hinv1 & Hf1 & Hc1).
    destruct (IH _ Hinv1) as (Hinv2 & Hf2 & Hc2).
    split; [done|]. split.
    + rewrite Hf2, Hf1, <- app_assoc. f_equal.
      destruct (decide (m = M)) as [->|Hne].
      * rewrite decide_False by done. rewrite decide_True by left. done.
      * destruct (decide (M ∈ ms)) as [Hin|Hnin].
        -- rewrite decide_True by (by right). done.
        -- rewrite decide_False; [done|]. intros [?|?]%elem_of_cons; congruence.
    + intros [->|Hin]%elem_of_cons; [|by apply Hc2].
      apply (extends_checkMetrics E rule ms). by apply Hc1.
Qed.

Lemma lintRule_missing (E : Env) (M rule : string) (st : State) :
  range_ok E →
  noSeries E M →
  unresolvedOrMissing M st →
  let st' := lintRule E st rule in
  unresolvedOrMissing M st' ∧
  findingsFor M (stderr st') =
    findingsFor M (stderr st) ++ (if decide (M ∈ referenced E rule) then [rule] else []) ∧
  (M ∈ referenced E rule → metrics st' !! M = Some false).
Proof.
  intros Hr HM Hinv. unfold lintRule, getMetrics, referenced.
  destruct (promql_ParseExpr E rule) as [err|expr]; cbv zeta.
  - rewrite findingsFor_print. simpl. rewrite decide_False by set_solver.
    split; [done|]. split; [done|]. set_solver.
  - rewrite Inspect_collect.
    destruct (checkMetrics_missing E M rule (map_range E (ranges st) (names expr))
                (tickRange st) HM (range_NoDup E _ _ Hr) Hinv) as (H1 & H2 & H3).
    split; [done|]. split.
    + rewrite H2. simpl. f_equal.
      destruct (decide (M ∈ names expr)) as [Hin|Hnin].
      * rewrite decide_True; [done|]. by apply range_elem_of.
      * rewrite decide_False; [done|]. by rewrite range_elem_of.
    + intros Hin. apply H3. by apply range_elem_of.
Qed.

Lemma lintRules_missing (E : Env) (M : string) (rules : list string) (st : State) :
  range_ok E →
  noSeries E M →
  unresolvedOrMissing M st →
  let st' := fold_left (lintRule E) rules st in
  unresolvedOrMissing M st' ∧
  findingsFor M (stderr st') =
    findingsFor M (stderr st) ++ filter (λ r, M ∈ referenced E r) rules ∧
  ((∃ r, r ∈ rules ∧ M ∈ referenced E r) → metrics st' !! M = Some false).
Proof.
  intros Hr HM. revert st. induction rules as [|r rules IH]; intros st Hinv; simpl.
  - rewrite app_nil_r. split; [done|]. split; [done|].
    intros (r & Hin & _). by apply elem_of_nil in Hin.
  - destruct (lintRule_missing E M r st Hr HM Hinv) as (Hinv1 & Hf1 & Hc1).
    destruct (IH _ Hinv1) as (Hinv2 & Hf2 & Hc2).
    split; [done|]. split.
    + rewrite Hf2, Hf1, <- app_assoc. f_equal. rewrite filter_cons.
      by destruct (decide (M ∈ referenced E r)).
    + intros (r' & [->|Hin]%elem_of_cons & Href); [|by eauto].
      apply (extends_lintRules E rules). by apply Hc1.
Qed.

Lemma finding_in_print (r m : string) (o : Output) (st : State) :
  finding r m ∈ stderr (print o st) → finding r m ∈ stderr st ∨ o = finding r m.
Proof.
  simpl. intros [H|H]%elem_of_app; [by left|].
  apply list_elem_of_singleton in H. by right.
Qed.

(** A finding is printed only for the metric being checked, and only
    once the memo table says that it is missing. *)
Lemma finding_checkMetric (E : Env) (rule m0 : string) (st : State) (r m : string) :
  finding r m ∈ stderr (checkMetric E rule st m0) →
  finding r m ∈ stderr st ∨
  (r = rule ∧ m = m0 ∧ metrics (checkMetric E rule st m0) !! m0 = Some false).
Proof.
  destruct (checkMetric_cases E rule m0 st) as
    [(b & Hb & ->)|[(err & Hm & Hs & ->)|(lset & w & Hm & Hs & ->)]].
  - destruct b; [by left|]. intros [H|H]%finding_in_print; [by left|].
    injection H as -> ->. by right.
  - intros [H|H]%finding_in_print; [by left | discriminate].
  - cbv zeta. destruct (verdict lset) eqn:Hv; [by left|].
    intros [H|H]%finding_in_print; [by left|].
    injection H as -> ->. right. simpl. by rewrite lookup_insert_eq.
Qed.

Lemma finding_checkMetrics (E : Env) (rule : string) (ms : list string) (st : State)
    (r m : string) :
  finding r m ∈ stderr (fold_left (checkMetric E rule) ms st) →
  finding r m ∈ stderr st ∨
  (r = rule ∧ m ∈ ms ∧ metrics (fold_left (checkMetric E rule) ms st) !! m = Some false).
Proof.
  revert st. induction ms as [|m0 ms IH]; intros st; simpl; [by left|].
  intros [H|(-> & Hin & Hf)]%IH.
  - apply finding_checkMetric in H as [H|(-> & -> & Hf)]; [by left|].
    right. split; [done|]. split; [left|].
    by apply (extends_checkMetrics E rule ms).
  - right. split; [done|]. split; [by right | done].
Qed.

Lemma finding_lintRule (E : Env) (rule : string) (st : State) (r m : string) :
  range_ok E →
  finding r m ∈ stderr (lintRule E st rule) →
  finding r m ∈ stderr st ∨
  (r = rule ∧ m ∈ referenced E rule ∧ metrics (lintRule E st rule) !! m = Some false).
Proof.
  intros Hr. unfold lintRule, getMetrics, referenced.
  destruct (promql_ParseExpr E rule) as [err|expr].
  - intros [H|H]%finding_in_print; [by left | discriminate].
  - rewrite Inspect_collect. intros [H|(-> & Hin & Hf)]%finding_checkMetrics; [by left|].
    right. split; [done|]. split; [|done]. by apply range_elem_of in Hin.
Qed.

Lemma finding_lintRules (E : Env) (rules : list string) (st : State) (r m : string) :
  range_ok E →
  finding r m ∈ stderr (fold_left (lintRule E) rules st) →
  finding r m ∈ stderr st ∨
  (r ∈ rules ∧ m ∈ referenced E r ∧
   metrics (fold_left (lintRule E) rules st) !! m = Some false).
Proof.
  intros Hr. revert st. induction rules as [|r0 rules IH]; intros st; simpl; [by left|].
  intros [H|(Hin & Href & Hf)]%IH.
  - apply (finding_lintRule E _ _ _ _ Hr) in H as [H|(-> & Href & Hf)]; [by left|].
    right. split; [left|]. split; [done|].
    by apply (extends_lintRules E rules).
  - right. split; [by right | done].
Qed.

Lemma verdict_false (lset : list LabelSet) : false = verdict lset → lset = [].
Proof.
  unfold verdict. destruct lset as [|l lset]; [done|]. intros H. symmetry in H.
  apply bool_decide_eq_false in H. simpl in H. lia.
Qed.

(** C10: findings are per rule and metric.  When the server has no
    series for [M], the rules reported for [M] are exactly the listed
    rules that refer to [M], in listing order and as often as they are
    listed, although at most one query for [M] is sent (exactly one as
    soon as some listed rule refers to it).  Conversely every finding
    names a listed rule and a metric that rule refers to and that the
    server answered with no series; a rule none of whose metrics is
    missing gets no finding. *)
Theorem findings_per_rule_and_metric (E : Env) (promURL : string) (res : RulesResult) :
  range_ok E →
  listed E promURL res →
  let final := snd (run E promURL initState) in
  (∀ M, noSeries E M →
     findingsFor M (stderr final) =
       filter (λ r, M ∈ referenced E r) (listRuleQueries res) ∧
     seriesCount M (calls final) ≤ 1 ∧
     ((∃ r, r ∈ listRuleQueries res ∧ M ∈ referenced E r) →
      seriesCount M (calls final) = 1)) ∧
  (∀ r m, finding r m ∈ stderr final →
     r ∈ listRuleQueries res ∧ m ∈ referenced E r ∧
     metrics final !! m = Some false ∧
     ∃ req w, SeriesCall req (inr ([], w)) ∈ calls final ∧ matches req = [m]).
Proof.
  intros Hr Hl final.
  assert (consistent final) as Hc.
  { apply (reachable_consistent E), reachable_run. }
  subst final. rewrite (run_listed _ _ _ _ Hl) in *. simpl in *. split.
  - intros M HM.
    destruct (lintRules_missing E M (listRuleQueries res)
                (logCall RulesCall (setMetrics ∅ initState)) Hr HM) as (Hinv & Hf & Hm).
    { left. done. }
    split; [exact Hf|]. split.
    + destruct Hinv as [[_ ->]|[_ ->]]; lia.
    + intros Hex. destruct Hinv as [[Hn _]|[_ ->]]; [|done].
      rewrite (Hm Hex) in Hn. discriminate.
  - intros r m H.
    apply (finding_lintRules E _ _ _ _ Hr) in H as [H|(Hin & Href & Hf)].
    { by apply elem_of_nil in H. }
    split; [done|]. split; [done|]. split; [done|].
    destruct (cached_answered _ Hc m false Hf) as (req & lset & w & Hcall & Hreq & Hv).
    apply verdict_false in Hv as ->. eauto.
Qed.

Lemma noSeries_demo (rs : error + RulesResult) (order : nat → gset string → list string)
    (M : string) :
  M ≠ "up" → noSeries (Demo.env rs Demo.series order) M.
Proof.
  intros HM h req Hreq. exists []. simpl. unfold Demo.series.
  rewrite Hreq. rewrite decide_False; [done|]. congruence.
Qed.

Lemma findings_per_rule_and_metric_witness :
  findingsFor "foo" (stderr (snd (run Demo.repeated Demo.address initState))) =
    ["foo + bar"; "foo + bar"] ∧
  seriesCount "foo" (calls (snd (run Demo.repeated Demo.address initState))) = 1 ∧
  metrics (snd (run Demo.repeated Demo.address initState)) !! "bar" = Some false.
Proof.
  destruct (findings_per_rule_and_metric Demo.repeated Demo.address _
              (descending_ok _ _) (listed_demo _ _ _)) as [HA HB].
  destruct (HA "foo") as (H1 & _ & H3).
  { apply noSeries_demo. discriminate. }
  split; [exact H1|]. split.
  - apply H3. exists "foo + bar". split; [left | vm_compute; reflexivity].
  - apply (HB "foo + bar" "bar"). vm_compute. repeat constructor.
Defined.

(** ** Runs against a steady server *)

Lemma steady_answer (E : Env) (m : string) (st : State) :
  steady E → api_Series E (calls st) (seriesRequest E m st) = answer E m.
Proof. intros H. by apply H. Qed.

Lemma sound_insert (E : Env) (m : string) (st : State) (c : ApiCall)
    (lset : list LabelSet) (w : list string) :
  answer E m = inr (lset, w) →
  sound E st →
  sound E (setMetrics (<[m := verdict lset]> (metrics st)) (logCall c st)).
Proof.
  intros Ha Hs m' b. simpl. destruct (decide (m = m')) as [<-|Hne].
  - rewrite lookup_insert_eq. intros [= <-]. eauto.
  - rewrite lookup_insert_ne by done. apply Hs.
Qed.

(** Against a steady server, one turn of the inner loop prints what
    [outcome] says, whatever is in the memo table already. *)
Lemma checkMetric_steady (E : Env) (rule m : string) (st : State) :
  steady E →
  sound E st →
  stderr (checkMetric E rule st m) = stderr st ++ outcome E rule m ∧
  sound E (checkMetric E rule st m).
Proof.
  intros HE Hs. unfold outcome.
  destruct (checkMetric_cases E rule m st) as
    [(b & Hb & ->)|[(err & Hm & Ha & ->)|(lset & w & Hm & Ha & ->)]].
  - destruct (Hs m b Hb) as (lset & w & -> & ->).
    destruct (verdict lset); [by rewrite app_nil_r | done].
  - rewrite steady_answer in Ha by done. by rewrite Ha.
  - rewrite steady_answer in Ha by done. rewrite Ha. cbv zeta.
    pose proof (sound_insert E m st
      (SeriesCall (seriesRequest E m st) (inr (lset, w))) lset w Ha Hs) as Hs'.
    destruct (verdict lset); [by rewrite app_nil_r | done].
Qed.

Lemma checkMetrics_steady (E : Env) (rule : string) (ms : list string) (st : State) :
  steady E →
  sound E st →
  stderr (fold_left (checkMetric E rule) ms st) = stderr st ++ (ms ≫= outcome E rule) ∧
  sound E (fold_left (checkMetric E rule) ms st).
Proof.
  intros HE. revert st. induction ms as [|m ms IH]; intros st Hs; simpl.
  - by rewrite app_nil_r.
  - destruct (checkMetric_steady E rule m st HE Hs) as [H1 H2].
    destruct (IH _ H2) as [H3 H4]. split; [|done].
    by rewrite H3, H1, <- app_assoc.
Qed.

Lemma lintRule_steady (E : Env) (rule : string) (st : State) :
  range_ok E →
  steady E →
  sound E st →
  ∃ ms, ms ≡ₚ elements (referenced E rule) ∧
        stderr (lintRule E st rule) = stderr st ++ report E rule ms ∧
        sound E (lintRule E st rule).
Proof.
  intros Hr HE Hs. unfold lintRule, getMetrics, referenced, report.
  destruct (promql_ParseExpr E rule) as [err|expr].
  - exists []. split; [by rewrite elements_empty | done].
  - rewrite Inspect_collect.
    exists (map_range E (ranges st) (names expr)). split; [apply Hr|].
    by apply (checkMetrics_steady E rule _ (tickRange st)).
Qed.

Lemma lintRules_steady (E : Env) (rules : list string) (st : State) :
  range_ok E →
  steady E →
  sound E st →
  ∃ os, Forall2 (λ rule ms, ms ≡ₚ elements (referenced E rule)) rules os ∧
        stderr (fold_left (lintRule E) rules st) =
          stderr st ++ concat (zip_with (report E) rules os).
Proof.
  intros Hr HE. revert st. induction rules as [|r rules IH]; intros st Hs; simpl.
  - exists []. split; [constructor | by rewrite app_nil_r].
  - destruct (lintRule_steady E r st Hr HE Hs) as (ms & Hms & Hout & Hs').
    destruct (IH _ Hs') as (os & Hos & Hrest).
    exists (ms :: os). split; [by constructor|].
    rewrite Hrest, Hout. simpl. by rewrite <- app_assoc.
Qed.

(** Against a steady server the output of a run is, rule after rule in
    listing order, the report of the rule for its metrics taken in some
    order. *)
Lemma run_steady (E : Env) (promURL : string) (res : RulesResult) :
  range_ok E →
  steady E →
  listed E promURL res →
  ∃ os, Forall2 (λ rule ms, ms ≡ₚ elements (referenced E rule)) (listRuleQueries res) os ∧
        stderr (snd (run E promURL initState)) =
          concat (zip_with (report E) (listRuleQueries res) os).
Proof.
  intros Hr HE Hl. rewrite (run_listed _ _ _ _ Hl). simpl.
  apply (lintRules_steady E _ (logCall RulesCall (setMetrics ∅ initState))); [done..|].
  intros m b H. simpl in H. by rewrite lookup_empty in H.
Qed.

Lemma report_Permutation (E : Env) (rule : string) (ms1 ms2 : list string) :
  ms1 ≡ₚ ms2 → report E rule ms1 ≡ₚ report E rule ms2.
Proof.
  intros H. unfold report. destruct (promql_ParseExpr E rule); [done|].
  by rewrite H.
Qed.

Lemma reports_Permutation (E : Env) (rules : list string) (os1 os2 : list (list string)) :
  Forall2 (λ rule ms, ms ≡ₚ elements (referenced E rule)) rules os1 →
  Forall2 (λ rule ms, ms ≡ₚ elements (referenced E rule)) rules os2 →
  concat (zip_with (report E) rules os1) ≡ₚ concat (zip_with (report E) rules os2).
Proof.
  intros H1. revert os2. induction H1 as [|r ms1 rules os1 Hms1 H1 IH];
    intros os2 H2; inversion H2 as [|? ms2 ? os2' Hms2 H2']; subst; simpl; [done|].
  apply Permutation_app; [|by apply IH].
  apply report_Permutation. by rewrite Hms1, Hms2.
Qed.

Lemma sameBackend_transfer (E1 E2 : Env) (promURL : string) (res : RulesResult) :
  sameBackend E1 E2 →
  (steady E1 → steady E2) ∧
  (listed E1 promURL res → listed E2 promURL res) ∧
  referenced E2 = referenced E1 ∧
  report E2 = report E1.
Proof.
  destruct E1, E2. unfold sameBackend. simpl. intros (-> & -> & -> & ->).
  split; [intros H; exact H|]. split; [intros H; exact H|]. split; reflexivity.
Qed.

Lemma steady_demo (rs : error + RulesResult) (order : nat → gset string → list string) :
  steady (Demo.env rs Demo.series order).
Proof. intros h1 h2 r1 r2 H. simpl. unfold Demo.series. by rewrite H. Qed.

(** Two runs against the same steady server can print the findings of a
    rule in different orders. *)
Lemma runs_differ_within_a_rule :
  range_ok Demo.upAscending ∧ range_ok Demo.upDescending ∧
  steady Demo.upAscending ∧ sameBackend Demo.upAscending Demo.upDescending ∧
  stderr (snd (run Demo.upAscending Demo.address initState)) ≠
  stderr (snd (run Demo.upDescending Demo.address initState)).
Proof.
  split; [apply ascending_ok|]. split; [apply descending_ok|].
  split; [apply steady_demo|]. split; [done|].
  intros H. vm_compute in H. discriminate.
Qed.

(** C9, amended: two runs against the same steady server deal with the
    rules in listing order and print, for every rule, the report of the
    same set of metrics; only the order in which the metrics of one rule
    are checked, and so the order of the lines within the report of one
    rule, is left to each run.  The two outputs are permutations of one
    another, and both runs end without error. *)
Theorem runs_agree_up_to_order_within_a_rule (E1 E2 : Env) (promURL : string)
    (res : RulesResult) :
  range_ok E1 →
  range_ok E2 →
  steady E1 →
  sameBackend E1 E2 →
  listed E1 promURL res →
  let out1 := stderr (snd (run E1 promURL initState)) in
  let out2 := stderr (snd (run E2 promURL initState)) in
  (∃ os1 os2,
     Forall2 (λ rule ms, ms ≡ₚ elements (referenced E1 rule)) (listRuleQueries res) os1 ∧
     Forall2 (λ rule ms, ms ≡ₚ elements (referenced E1 rule)) (listRuleQueries res) os2 ∧
     out1 = concat (zip_with (report E1) (listRuleQueries res) os1) ∧
     out2 = concat (zip_with (report E1) (listRuleQueries res) os2)) ∧
  out1 ≡ₚ out2 ∧
  fst (run E1 promURL initState) = None ∧
  fst (run E2 promURL initState) = None.
Proof.
  intros Hr1 Hr2 HE1 Hsame Hl1 out1 out2.
  destruct (sameBackend_transfer E1 E2 promURL res Hsame) as (HE & Hl & Href & Hrep).
  destruct (run_steady E1 promURL res Hr1 HE1 Hl1) as (os1 & Hos1 & Hout1).
  destruct (run_steady E2 promURL res Hr2 (HE HE1) (Hl Hl1)) as (os2 & Hos2 & Hout2).
  rewrite Href, Hrep in *. subst out1 out2.
  split; [by exists os1, os2|]. split.
  - rewrite Hout1, Hout2. by apply reports_Permutation.
  - by rewrite (run_listed _ _ _ _ Hl1), (run_listed _ _ _ _ (Hl Hl1)).
Qed.

Lemma runs_agree_up_to_order_within_a_rule_witness :
  stderr (snd (run Demo.upAscending Demo.address initState)) ≡ₚ
  stderr (snd (run Demo.upDescending Demo.address initState)).
Proof.
  refine (proj1 (proj2 (runs_agree_up_to_order_within_a_rule
    Demo.upAscending Demo.upDescending Demo.address _
    (ascending_ok _ _) (descending_ok _ _) (steady_demo _ _) _ (listed_demo _ _ _)))).
  done.
Defined.

(** * Further properties of the program *)

(** ** When the listing fails *)

(** When the address is accepted but the listing fails, [run] stops with
    the error of the listing wrapped in "failed to get rules": the
    listing is the only call sent, nothing has been printed by [run],
    and [main] prints that one error and exits with status 2. *)
Theorem listing_failure_aborts (E : Env) (promURL : string) (u : URL) (err : error)
    (st : State) :
  promURL ≠ "" →
  url_Parse E promURL = inr u →
  Scheme u = "http" ∨ Scheme u = "https" →
  api_Rules E = inl err →
  fst (run E promURL st) = Some (Wrapf err "failed to get rules" []) ∧
  calls (snd (run E promURL st)) = calls st ++ [RulesCall] ∧
  stderr (snd (run E promURL st)) = stderr st ∧
  fst (main E false promURL) = 2%Z ∧
  calls (snd (main E false promURL)) = [RulesCall] ∧
  stderr (snd (main E false promURL)) = [Fprintln (Wrapf err "failed to get rules" [])].
Proof.
  intros Hne Hp Hs Hr.
  assert (∀ st, run E promURL st =
            (Some (Wrapf err "failed to get rules" []),
             logCall RulesCall (setMetrics ∅ st))) as Hrun.
  { intros st'. unfold run. rewrite decide_False by done. rewrite Hp.
    rewrite decide_False by (destruct Hs as [-> | ->]; intros [? ?]; done).
    unfold newRuleLinter, getRules. by rewrite Hp, Hr. }
  unfold main. rewrite !Hrun. done.
Qed.

Lemma listing_failure_aborts_witness :
  fst (main Demo.listingDown false Demo.address) = 2%Z ∧
  calls (snd (main Demo.listingDown false Demo.address)) = [RulesCall] ∧
  stderr (snd (main Demo.listingDown false Demo.address)) =
    [Fprintln (Wrapf (ExternalError "connection refused") "failed to get rules" [])].
Proof.
  destruct (listing_failure_aborts Demo.listingDown Demo.address
              (mkURL "http" "" "//localhost:9090") (ExternalError "connection refused")
              initState) as (_ & _ & _ & H4 & H5 & H6);
    [discriminate | reflexivity | by left | reflexivity |].
  split; [exact H4|]. split; [exact H5 | exact H6].
Defined.

Lemma run_succeeds_iff (E : Env) (promURL : string) (st : State) :
  fst (run E promURL st) = None ↔ ∃ res, listed E promURL res.
Proof.
  split.
  - unfold run, listed. case_decide as Hne; [discriminate|].
    destruct (url_Parse E promURL) as [err|u] eqn:Hp; [discriminate|].
    case_decide as Hs; [discriminate|]. unfold newRuleLinter, getRules. rewrite Hp.
    destruct (api_Rules E) as [err|res] eqn:Hr; [discriminate|]. intros _.
    exists res. split; [done|]. split; [|done]. exists u. split; [done|].
    destruct (decide (Scheme u = "http")); [by left|].
    destruct (decide (Scheme u = "https")); [by right|]. by destruct Hs.
  - intros [res Hl]. by rewrite (run_listed _ _ _ _ Hl).
Qed.

(** The exit status of [main] is 0 or 2, and it is 0 exactly when help
    was asked for or the address was accepted and the listing
    succeeded: neither findings nor the errors of single rules or checks
    change it. *)
Theorem exit_status (E : Env) (help : bool) (promURL : string) :
  (fst (main E help promURL) = 0%Z ∨ fst (main E help promURL) = 2%Z) ∧
  (fst (main E help promURL) = 0%Z ↔ help = true ∨ ∃ res, listed E promURL res).
Proof.
  unfold main. destruct help; simpl.
  - split; [by left|]. split; [by left | done].
  - pose proof (run_succeeds_iff E promURL initState) as Hiff.
    destruct (run E promURL initState) as [[err|] st]; simpl in *.
    + split; [by right|]. split; [done|]. intros [?|Hl]; [done|].
      by apply Hiff in Hl.
    + split; [by left|]. split; [|done]. intros _. right. by apply Hiff.
Qed.

(** ** [metricExists], one call after another *)

(** What [metricExists] returns is what the memo table holds afterwards
    and what the server said.  Without an error the returned verdict is
    the entry of the name, which either was there before or is the
    verdict of the server's answer to the query just sent.  With an
    error the name was not in the table, the server failed the query
    just sent, the error returned is that very error wrapped in "failed
    to get metric", the verdict is [false], and the table is as before.
    In both cases nothing is printed. *)
Theorem metricExists_result_is_cached (E : Env) (name : string) (st : State) :
  stderr (snd (metricExists E name st)) = stderr st ∧
  match snd (fst (metricExists E name st)) with
  | None =>
    metrics (snd (metricExists E name st)) !! name =
      Some (fst (fst (metricExists E name st))) ∧
    (metrics st !! name = Some (fst (fst (metricExists E name st))) ∨
     metrics st !! name = None ∧
     ∃ lset w, api_Series E (calls st) (seriesRequest E name st) = inr (lset, w) ∧
               fst (fst (metricExists E name st)) = verdict lset)
  | Some e =>
    fst (fst (metricExists E name st)) = false ∧
    metrics (snd (metricExists E name st)) = metrics st ∧
    metrics st !! name = None ∧
    ∃ err, api_Series E (calls st) (seriesRequest E name st) = inl err ∧
           e = Wrapf err "failed to get metric %q" [name]
  end.
Proof.
  destruct (metricExists_cases E name st) as
    [(b & Hb & ->)|[(err & Hm & Hs & ->)|(lset & w & Hm & Hs & ->)]]; simpl.
  - split; [done|]. split; [done | by left].
  - split_and!; [done | done | done | done |]. by exists err.
  - rewrite lookup_insert_eq. split; [done|]. split; [done|]. right.
    split; [done|]. by exists lset, w.
Qed.

(** A call of [metricExists] that returned without error can be repeated
    at once: the second call returns the same verdict and changes
    nothing, whatever the server would answer by then. *)
Theorem metricExists_idempotent (E : Env) (name : string) (st : State) :
  snd (fst (metricExists E name st)) = None →
  metricExists E name (snd (metricExists E name st)) =
    ((fst (fst (metricExists E name st)), None), snd (metricExists E name st)).
Proof.
  intros Hok.
  destruct (metricExists_cases E name st) as
    [(b & Hb & Heq)|[(err & Hm & _ & Heq)|(lset & w & Hm & _ & Heq)]];
    rewrite Heq in *; simpl in *.
  - by rewrite Heq.
  - discriminate.
  - destruct (metricExists_cases E name
      (setMetrics (<[name:=verdict lset]> (metrics st))
         (logCall (SeriesCall (seriesRequest E name st) (inr (lset, w))) st)))
      as [(b & Hb & ->)|[(err & Hm' & _)|(lset' & w' & Hm' & _)]]; simpl in *.
    + rewrite lookup_insert_eq in Hb. by injection Hb as <-.
    + by rewrite lookup_insert_eq in Hm'.
    + by rewrite lookup_insert_eq in Hm'.
Qed.

Lemma metricExists_idempotent_witness :
  metricExists Demo.vanishing "up" (snd (metricExists Demo.vanishing "up" initState)) =
    ((true, None), snd (metricExists Demo.vanishing "up" initState)).
Proof.
  exact (metricExists_idempotent Demo.vanishing "up" initState eq_refl).
Defined.

(** ** The loops of [run] only add *)

Lemma grows_refl (st : State) : grows st st.
Proof. by repeat split. Qed.

Lemma grows_trans (st1 st2 st3 : State) : grows st1 st2 → grows st2 st3 → grows st1 st3.
Proof.
  intros (H1 & H2 & H3 & H4) (H5 & H6 & H7 & H8).
  repeat split; [by etrans | by etrans | by etrans | lia].
Qed.

Lemma grows_print (o : Output) (st : State) : grows st (print o st).
Proof. repeat split; simpl; [done | done | by apply prefix_app_r | done]. Qed.

Lemma grows_logCall (c : ApiCall) (st : State) : grows st (logCall c st).
Proof. repeat split; simpl; [done | by apply prefix_app_r | done | done]. Qed.

Lemma grows_tickRange (st : State) : grows st (tickRange st).
Proof. repeat split; simpl; [done | done | done | lia]. Qed.

Lemma grows_setMetrics (m : string) (v : bool) (st : State) :
  metrics st !! m = None → grows st (setMetrics (<[m := v]> (metrics st)) st).
Proof. intros H. repeat split; simpl; [by apply insert_subseteq | done..]. Qed.

Lemma grows_checkMetric (E : Env) (rule m : string) (st : State) :
  grows st (checkMetric E rule st m).
Proof.
  destruct (checkMetric_cases E rule m st) as
    [(b & _ & ->)|[(err & _ & _ & ->)|(lset & w & Hm & _ & ->)]].
  - destruct b; [apply grows_refl | apply grows_print].
  - eapply grows_trans; [apply grows_logCall | apply grows_print].
  - assert (grows st (setMetrics (<[m:=verdict lset]> (metrics st))
        (logCall (SeriesCall (seriesRequest E m st) (inr (lset, w))) st))) as Hg.
    { eapply grows_trans; [apply grows_logCall|].
      by apply (grows_setMetrics m (verdict lset) (logCall _ st)). }
    cbv zeta. destruct (verdict lset); [done|].
    eapply grows_trans; [exact Hg | apply grows_print].
Qed.

Lemma grows_checkMetrics (E : Env) (rule : string) (ms : list string) (st : State) :
  grows st (fold_left (checkMetric E rule) ms st).
Proof.
  revert st. induction ms as [|m ms IH]; intros st; simpl; [apply grows_refl|].
  eapply grows_trans; [apply grows_checkMetric | apply IH].
Qed.

Lemma grows_lintRule (E : Env) (rule : string) (st : State) :
  grows st (lintRule E st rule).
Proof.
  unfold lintRule, getMetrics. destruct (promql_ParseExpr E rule) as [err|expr].
  - apply grows_print.
  - eapply grows_trans; [apply grows_tickRange | apply grows_checkMetrics].
Qed.

Lemma grows_lintRules (E : Env) (rules : list string) (st : State) :
  grows st (fold_left (lintRule E) rules st).
Proof.
  revert st. induction rules as [|r rules IH]; intros st; simpl; [apply grows_refl|].
  eapply grows_trans; [apply grows_lintRule | apply IH].
Qed.

(** Whatever the rules and the server's answers, the loop of [run] never
    takes anything back: every entry of the memo table keeps its value,
    and the log of calls and the output are extended at their end. *)
Theorem run_loop_only_adds (E : Env) (rules : list string) (st : State) :
  metrics st ⊆ metrics (fold_left (lintRule E) rules st) ∧
  calls st `prefix_of` calls (fold_left (lintRule E) rules st) ∧
  stderr st `prefix_of` stderr (fold_left (lintRule E) rules st).
Proof.
  by destruct (grows_lintRules E rules st) as (H1 & H2 & H3 & _).
Qed.

(** ** Rules without a named selector *)

(** A rule that parses but none of whose selectors carries a name (the
    metric is given by a matcher on [__name__] only, or there is no
    selector at all) is passed over: no query is sent, nothing is
    printed and the memo table is untouched. *)
Theorem rule_without_named_selector_is_skipped (E : Env) (rule : string)
    (expr : Node) (st : State) :
  range_ok E →
  promql_ParseExpr E rule = inr expr →
  (∀ n k, subnode n expr → selectorName n = Some k → k = "") →
  metrics (lintRule E st rule) = metrics st ∧
  calls (lintRule E st rule) = calls st ∧
  stderr (lintRule E st rule) = stderr st.
Proof.
  intros Hr Hp Hnone.
  assert (names expr = ∅) as Hempty.
  { apply set_eq. intros k. rewrite names_spec. split; [|set_solver].
    intros (Hk & n & Hsub & Hsel). destruct Hk. eauto. }
  unfold lintRule. rewrite (getMetrics_parsed _ _ _ _ Hp), Hempty.
  assert (map_range E (ranges st) ∅ = []) as ->; [|done].
  apply Permutation_nil_r. rewrite (Hr _ ∅). by rewrite elements_empty.
Qed.

Lemma rule_without_named_selector_is_skipped_witness :
  metrics (lintRule Demo.upAscending initState "{__name__='up'}") = ∅ ∧
  calls (lintRule Demo.upAscending initState "{__name__='up'}") = [] ∧
  stderr (lintRule Demo.upAscending initState "{__name__='up'}") = [].
Proof.
  apply (rule_without_named_selector_is_skipped Demo.upAscending _
           (VectorSelector "" 0 [Demo.nameIs "up"])).
  - apply ascending_ok.
  - reflexivity.
  - intros n k Hsub. inversion Hsub as [|? c ? Hc]; subst.
    + by intros [= <-].
    + by apply elem_of_nil in Hc.
Defined.

(** ** A resolved name is never asked for again *)

Lemma findingsFor_snoc (M : string) (out : list Output) (o : Output) :
  findingsFor M (out ++ [o]) = findingsFor M out ++ from_option (λ r, [r]) [] (findingRule M o).
Proof. unfold findingsFor. rewrite omap_app. simpl. by destruct (findingRule M o). Qed.

Lemma checkMetric_resolved (E : Env) (M rule m : string) (b : bool) (st : State) :
  metrics st !! M = Some b →
  metrics (checkMetric E rule st m) !! M = Some b ∧
  seriesCount M (calls (checkMetric E rule st m)) = seriesCount M (calls st) ∧
  (b = true →
   findingsFor M (stderr (checkMetric E rule st m)) = findingsFor M (stderr st)).
Proof.
  intros HM.
  destruct (checkMetric_cases E rule m st) as
    [(b' & Hb & ->)|[(err & Hm & _ & ->)|(lset & w & Hm & _ & ->)]].
  - destruct b'; [done|]. simpl. split; [done|]. split; [done|]. intros ->.
    rewrite findingsFor_snoc, findingRule_other; [by rewrite app_nil_r|].
    intros ->. congruence.
  - assert (m ≠ M) as Hne by congruence. simpl.
    rewrite seriesCount_snoc, seriesFor_other, Nat.add_0_r by done.
    split; [done|]. split; [done|]. intros _.
    rewrite findingsFor_snoc. simpl. by rewrite app_nil_r.
  - assert (m ≠ M) as Hne by congruence. cbv zeta.
    destruct (verdict lset); simpl;
      rewrite lookup_insert_ne, seriesCount_snoc, seriesFor_other, Nat.add_0_r by done.
    + done.
    + split; [done|]. split; [done|]. intros _.
      rewrite findingsFor_snoc, findingRule_other by done. by rewrite app_nil_r.
Qed.

Lemma checkMetrics_resolved (E : Env) (M rule : string) (ms : list string) (b : bool)
    (st : State) :
  metrics st !! M = Some b →
  metrics (fold_left (checkMetric E rule) ms st) !! M = Some b ∧
  seriesCount M (calls (fold_left (checkMetric E rule) ms st)) = seriesCount M (calls st) ∧
  (b = true →
   findingsFor M (stderr (fold_left (checkMetric E rule) ms st)) =
   findingsFor M (stderr st)).
Proof.
  revert st. induction ms as [|m ms IH]; intros st HM; simpl; [done|].
  destruct (checkMetric_resolved E M rule m b st HM) as (H1 & H2 & H3).
  destruct (IH _ H1) as (H4 & H5 & H6).
  split; [done|]. split; [congruence|]. intros Hb. by rewrite H6, H3.
Qed.

Lemma lintRule_resolved (E : Env) (M rule : string) (b : bool) (st : State) :
  metrics st !! M = Some b →
  metrics (lintRule E st rule) !! M = Some b ∧
  seriesCount M (calls (lintRule E st rule)) = seriesCount M (calls st) ∧
  (b = true → findingsFor M (stderr (lintRule E st rule)) = findingsFor M (stderr st)).
Proof.
  intros HM. unfold lintRule, getMetrics.
  destruct (promql_ParseExpr E rule) as [err|expr].
  - split; [done|]. split; [done|]. intros _.
    rewrite findingsFor_print. simpl. by rewrite app_nil_r.
  - by apply (checkMetrics_resolved E M rule _ b (tickRange st)).
Qed.

(** Once a name is in the memo table, the rest of the run sends no
    further query for it and keeps its verdict, whatever the server
    would answer by then; a name resolved as existing gets no finding in
    any later rule. *)
Theorem resolved_name_is_settled (E : Env) (M : string) (b : bool)
    (rules : list string) (st : State) :
  metrics st !! M = Some b →
  metrics (fold_left (lintRule E) rules st) !! M = Some b ∧
  seriesCount M (calls (fold_left (lintRule E) rules st)) = seriesCount M (calls st) ∧
  (b = true →
   findingsFor M (stderr (fold_left (lintRule E) rules st)) = findingsFor M (stderr st)).
Proof.
  revert st. induction rules as [|r rules IH]; intros st HM; simpl; [done|].
  destruct (lintRule_resolved E M r b st HM) as (H1 & H2 & H3).
  destruct (IH _ H1) as (H4 & H5 & H6).
  split; [done|]. split; [congruence|]. intros Hb. by rewrite H6, H3.
Qed.

Lemma resolved_name_is_settled_witness :
  metrics (fold_left (lintRule Demo.vanishing) ["up"; "up == 0"]
             (snd (metricExists Demo.vanishing "up" initState))) !! "up" = Some true ∧
  seriesCount "up" (calls (fold_left (lintRule Demo.vanishing) ["up"; "up == 0"]
             (snd (metricExists Demo.vanishing "up" initState)))) = 1 ∧
  findingsFor "up" (stderr (fold_left (lintRule Demo.vanishing) ["up"; "up == 0"]
             (snd (metricExists Demo.vanishing "up" initState)))) = [].
Proof.
  destruct (resolved_name_is_settled Demo.vanishing "up" true ["up"; "up == 0"]
              (snd (metricExists Demo.vanishing "up" initState)) eq_refl)
    as (H1 & H2 & H3).
  split; [exact H1|]. split; [exact H2 | exact (H3 eq_refl)].
Defined.

(** ** A name whose check keeps failing *)

Lemma checkMetric_failing (E : Env) (M rule m : string) (st : State) :
  alwaysFails E M →
  metrics st !! M = None →
  metrics (checkMetric E rule st m) !! M = None ∧
  seriesCount M (calls (checkMetric E rule st m)) =
    seriesCount M (calls st) + (if decide (m = M) then 1 else 0).
Proof.
  intros HF HM.
  destruct (checkMetric_cases E rule m st) as
    [(b' & Hb & ->)|[(err & Hm & Hs & ->)|(lset & w & Hm & Hs & ->)]].
  - rewrite decide_False by congruence. destruct b'; simpl; by rewrite Nat.add_0_r.
  - simpl. rewrite seriesCount_snoc. split; [done|]. f_equal.
    destruct (decide (m = M)) as [->|Hne].
    + by rewrite seriesFor_request_same.
    + by rewrite seriesFor_other.
  - destruct (decide (m = M)) as [->|Hne].
    + destruct (HF (calls st) (seriesRequest E M st) eq_refl) as [err Herr]. congruence.
    + cbv zeta. destruct (verdict lset); simpl;
        by rewrite lookup_insert_ne, seriesCount_snoc, seriesFor_other by done.
Qed.

Lemma checkMetrics_failing (E : Env) (M rule : string) (ms : list string) (st : State) :
  alwaysFails E M →
  NoDup ms →
  metrics st !! M = None →
  metrics (fold_left (checkMetric E rule) ms st) !! M = None ∧
  seriesCount M (calls (fold_left (checkMetric E rule) ms st)) =
    seriesCount M (calls st) + (if decide (M ∈ ms) then 1 else 0).
Proof.
  intros HF Hnd. revert st. induction Hnd as [|m ms Hm Hnd IH]; intros st HM; simpl.
  - by rewrite Nat.add_0_r.
  - destruct (checkMetric_failing E M rule m st HF HM) as [H1 H2].
    destruct (IH _ H1) as [H3 H4]. split; [done|]. rewrite H4, H2.
    destruct (decide (m = M)) as [->|Hne].
    + rewrite decide_False by done. rewrite decide_True by left. lia.
    + destruct (decide (M ∈ ms)) as [Hin|Hnin].
      * rewrite decide_True by (by right). lia.
      * rewrite decide_False; [lia|]. intros [?|?]%elem_of_cons; congruence.
Qed.

Lemma lintRule_failing (E : Env) (M rule : string) (st : State) :
  range_ok E →
  alwaysFails E M →
  metrics st !! M = None →
  metrics (lintRule E st rule) !! M = None ∧
  seriesCount M (calls (lintRule E st rule)) =
    seriesCount M (calls st) + (if decide (M ∈ referenced E rule) then 1 else 0).
Proof.
  intros Hr HF HM. unfold lintRule, getMetrics, referenced.
  destruct (promql_ParseExpr E rule) as [err|expr].
  - simpl. rewrite decide_False by set_solver. by rewrite Nat.add_0_r.
  - rewrite Inspect_collect.
    destruct (checkMetrics_failing E M rule (map_range E (ranges st) (names expr))
                (tickRange st) HF (range_NoDup E _ _ Hr) HM) as [H1 H2].
    split; [done|]. rewrite H2. simpl. f_equal.
    destruct (decide (M ∈ names expr)) as [Hin|Hnin].
    + rewrite decide_True; [done|]. by apply range_elem_of.
    + rewrite decide_False; [done|]. by rewrite range_elem_of.
Qed.

Lemma lintRules_failing (E : Env) (M : string) (rules : list string) (st : State) :
  range_ok E →
  alwaysFails E M →
  metrics st !! M = None →
  metrics (fold_left (lintRule E) rules st) !! M = None ∧
  seriesCount M (calls (fold_left (lintRule E) rules st)) =
    seriesCount M (calls st) + length (filter (λ r, M ∈ referenced E r) rules).
Proof.
  intros Hr HF. revert st. induction rules as [|r rules IH]; intros st HM; simpl.
  - by rewrite Nat.add_0_r.
  - destruct (lintRule_failing E M r st Hr HF HM) as [H1 H2].
    destruct (IH _ H1) as [H3 H4]. split; [done|]. rewrite H4, H2, filter_cons.
    destruct (decide (M ∈ referenced E r)); simpl; lia.
Qed.

(** There is no negative caching: when the server fails every query for
    [M], a run sends one query for [M] for each listed rule that refers
    to it, and [M] is still absent from the memo table at the end. *)
Theorem failing_name_is_queried_for_every_rule (E : Env) (promURL : string)
    (res : RulesResult) (M : string) :
  range_ok E →
  listed E promURL res →
  alwaysFails E M →
  seriesCount M (calls (snd (run E promURL initState))) =
    length (filter (λ r, M ∈ referenced E r) (listRuleQueries res)) ∧
  metrics (snd (run E promURL initState)) !! M = None.
Proof.
  intros Hr Hl HF. rewrite (run_listed _ _ _ _ Hl). simpl.
  destruct (lintRules_failing E M (listRuleQueries res)
              (logCall RulesCall (setMetrics ∅ initState)) Hr HF) as [H1 H2]; [done|].
  split; [|done]. by rewrite H2.
Qed.

Lemma failing_name_is_queried_for_every_rule_witness :
  seriesCount "up" (calls (snd (run Demo.down Demo.address initState))) = 2 ∧
  metrics (snd (run Demo.down Demo.address initState)) !! "up" = None.
Proof.
  destruct (failing_name_is_queried_for_every_rule Demo.down Demo.address _ "up"
              (ascending_ok _ _) (listed_demo _ _ _)) as [H1 H2].
  { intros h req _. by eexists. }
  split; [exact H1 | exact H2].
Defined.

(** ** What a run asks the server and what it prints *)

Lemma queryFor_mono (E : Env) (rules rules' : list string) (c : ApiCall) :
  (∀ r, r ∈ rules → r ∈ rules') → queryFor E rules c → queryFor E rules' c.
Proof.
  intros Hsub (req & resp & m & rule & ? & ? & ? & ? & ?).
  exists req, resp, m, rule. eauto 10.
Qed.

Lemma explained_mono (E : Env) (rules rules' : list string) (cs cs' : list ApiCall)
    (o : Output) :
  (∀ r, r ∈ rules → r ∈ rules') → cs `prefix_of` cs' →
  explained E rules cs o → explained E rules' cs' o.
Proof.
  intros Hsub [k ->] [(rule & err & ? & ? & ?)|[(rule & m & err & req & ? & ? & ? & ? & ?)|
    (rule & m & ? & ? & ?)]].
  - left. exists rule, err. eauto.
  - right. left. exists rule, m, err, req. repeat split; eauto.
    apply elem_of_app. by left.
  - right. right. exists rule, m. eauto.
Qed.

(** One turn of the inner loop: the calls and the lines it adds. *)
Lemma checkMetric_adds (E : Env) (rule m : string) (st : State) :
  m ∈ referenced E rule →
  ∃ cs out,
    calls (checkMetric E rule st m) = calls st ++ cs ∧
    stderr (checkMetric E rule st m) = stderr st ++ out ∧
    Forall (queryFor E [rule]) cs ∧
    Forall (explained E [rule] (calls (checkMetric E rule st m))) out.
Proof.
  intros Href.
  assert (∀ resp, queryFor E [rule] (SeriesCall (seriesRequest E m st) resp)) as Hq.
  { intros resp. exists (seriesRequest E m st), resp, m, rule.
    split_and!; [done | done | done | left | done]. }
  assert (∀ cs, explained E [rule] cs (finding rule m)) as Hf.
  { intros cs. right. right. exists rule, m. split_and!; [left | done | done]. }
  destruct (checkMetric_cases E rule m st) as
    [(b & _ & ->)|[(err & _ & _ & ->)|(lset & w & _ & _ & ->)]].
  - destruct b.
    + exists [], []. by rewrite !app_nil_r.
    + exists [], [finding rule m]. rewrite app_nil_r.
      split_and!; [done | done | done | by constructor].
  - exists [SeriesCall (seriesRequest E m st) (inl err)],
           [Fprintln (Wrapf err "failed to get metric %q" [m])].
    split_and!; [done | done | by constructor |]. constructor; [|done].
    right. left. exists rule, m, err, (seriesRequest E m st).
    split_and!; [left | done | | done | done]. simpl. apply elem_of_app. right. left.
  - cbv zeta. destruct (verdict lset).
    + exists [SeriesCall (seriesRequest E m st) (inr (lset, w))], [].
      rewrite app_nil_r. split_and!; [done | done | by constructor | done].
    + exists [SeriesCall (seriesRequest E m st) (inr (lset, w))], [finding rule m].
      split_and!; [done | done | by constructor | by constructor].
Qed.

Lemma checkMetrics_adds (E : Env) (rule : string) (ms : list string) (st : State) :
  (∀ m, m ∈ ms → m ∈ referenced E rule) →
  ∃ cs out,
    calls (fold_left (checkMetric E rule) ms st) = calls st ++ cs ∧
    stderr (fold_left (checkMetric E rule) ms st) = stderr st ++ out ∧
    Forall (queryFor E [rule]) cs ∧
    Forall (explained E [rule] (calls (fold_left (checkMetric E rule) ms st))) out.
Proof.
  revert st. induction ms as [|m ms IH]; intros st Href; simpl.
  - exists [], []. by rewrite !app_nil_r.
  - destruct (checkMetric_adds E rule m st) as (cs1 & out1 & Hc1 & Ho1 & Hq1 & He1).
    { apply Href. left. }
    destruct (IH (checkMetric E rule st m)) as (cs2 & out2 & Hc2 & Ho2 & Hq2 & He2).
    { intros m' Hm'. apply Href. by right. }
    exists (cs1 ++ cs2), (out1 ++ out2).
    split; [by rewrite Hc2, Hc1, app_assoc|].
    split; [by rewrite Ho2, Ho1, app_assoc|].
    split; [by apply Forall_app|]. apply Forall_app. split; [|done].
    eapply Forall_impl; [exact He1|]. intros o. apply explained_mono; [done|].
    rewrite Hc2. by apply prefix_app_r.
Qed.

Lemma lintRule_adds (E : Env) (rule : string) (st : State) :
  range_ok E →
  ∃ cs out,
    calls (lintRule E st rule) = calls st ++ cs ∧
    stderr (lintRule E st rule) = stderr st ++ out ∧
    Forall (queryFor E [rule]) cs ∧
    Forall (explained E [rule] (calls (lintRule E st rule))) out.
Proof.
  intros Hr. unfold lintRule, getMetrics.
  destruct (promql_ParseExpr E rule) as [err|expr] eqn:Hp.
  - exists [], [Fprintln err]. rewrite app_nil_r.
    split_and!; [done | done | done |].
    constructor; [|done]. left. exists rule, err. split_and!; [left | done | done].
  - rewrite Inspect_collect.
    apply (checkMetrics_adds E rule _ (tickRange st)).
    intros m Hm. apply range_elem_of in Hm; [|done].
    unfold referenced. by rewrite Hp.
Qed.

Lemma lintRules_adds (E : Env) (rules : list string) (st : State) :
  range_ok E →
  ∃ cs out,
    calls (fold_left (lintRule E) rules st) = calls st ++ cs ∧
    stderr (fold_left (lintRule E) rules st) = stderr st ++ out ∧
    Forall (queryFor E rules) cs ∧
    Forall (explained E rules (calls (fold_left (lintRule E) rules st))) out.
Proof.
  intros Hr. revert st. induction rules as [|r rules IH]; intros st; simpl.
  - exists [], []. by rewrite !app_nil_r.
  - destruct (lintRule_adds E r st Hr) as (cs1 & out1 & Hc1 & Ho1 & Hq1 & He1).
    destruct (IH (lintRule E st r)) as (cs2 & out2 & Hc2 & Ho2 & Hq2 & He2).
    exists (cs1 ++ cs2), (out1 ++ out2).
    split; [by rewrite Hc2, Hc1, app_assoc|].
    split; [by rewrite Ho2, Ho1, app_assoc|].
    split; apply Forall_app; split.
    + eapply Forall_impl; [exact Hq1|]. intros c. apply queryFor_mono.
      intros r' ->%list_elem_of_singleton. left.
    + eapply Forall_impl; [exact Hq2|]. intros c. apply queryFor_mono.
      intros r' Hr'. by right.
    + eapply Forall_impl; [exact He1|]. intros o. apply explained_mono.
      * intros r' ->%list_elem_of_singleton. left.
      * rewrite Hc2. by apply prefix_app_r.
    + eapply Forall_impl; [exact He2|]. intros o. apply explained_mono; [|done].
      intros r' Hr'. by right.
Qed.

(** A run asks the server only what the rules call for: the log of a run
    that got its listing is the listing followed by series queries, each
    for a single metric name that some listed rule refers to and each
    starting at the zero time. *)
Theorem run_queries_only_referenced_names (E : Env) (promURL : string)
    (res : RulesResult) :
  range_ok E →
  listed E promURL res →
  ∃ cs, calls (snd (run E promURL initState)) = RulesCall :: cs ∧
        Forall (queryFor E (listRuleQueries res)) cs.
Proof.
  intros Hr Hl. rewrite (run_listed _ _ _ _ Hl). simpl.
  destruct (lintRules_adds E (listRuleQueries res)
              (logCall RulesCall (setMetrics ∅ initState)) Hr)
    as (cs & out & Hc & _ & Hq & _).
  exists cs. by rewrite Hc.
Qed.

Lemma run_queries_only_referenced_names_witness :
  ∃ cs, calls (snd (run Demo.upAscending Demo.address initState)) = RulesCall :: cs ∧
        Forall (queryFor Demo.upAscending
                  ["rate(http_requests_total[5m])"; "up == 0"; "foo + bar"; "sum("]) cs.
Proof.
  exact (run_queries_only_referenced_names Demo.upAscending Demo.address _
           (ascending_ok _ _) (listed_demo _ _ _)).
Defined.

(** Every line a run prints has a cause among the listed rules: it is
    the parse error of a listed rule, the wrapped error of a failed
    query (which is in the log) for a metric a listed rule refers to, or
    a finding for a listed rule and a metric that rule refers to. *)
Theorem run_prints_only_diagnostics (E : Env) (promURL : string)
    (res : RulesResult) :
  range_ok E →
  listed E promURL res →
  Forall (explained E (listRuleQueries res) (calls (snd (run E promURL initState))))
         (stderr (snd (run E promURL initState))).
Proof.
  intros Hr Hl. rewrite (run_listed _ _ _ _ Hl). simpl.
  destruct (lintRules_adds E (listRuleQueries res)
              (logCall RulesCall (setMetrics ∅ initState)) Hr)
    as (cs & out & _ & Ho & _ & He).
  by rewrite Ho.
Qed.

Lemma run_prints_only_diagnostics_witness :
  Forall (explained Demo.flaky
            ["rate(http_requests_total[5m])"; "up == 0"; "foo + bar"; "sum("]
            (calls (snd (run Demo.flaky Demo.address initState))))
         (stderr (snd (run Demo.flaky Demo.address initState))).
Proof.
  exact (run_prints_only_diagnostics Demo.flaky Demo.address _
           (ascending_ok _ _) (listed_demo _ _ _)).
Defined.

(** ** A run that finds nothing *)

Lemma checkMetric_clean (E : Env) (rule m : string) (st : State) :
  hasSeries E m →
  allFound st →
  stderr (checkMetric E rule st m) = stderr st ∧
  allFound (checkMetric E rule st m) ∧
  metrics (checkMetric E rule st m) !! m = Some true.
Proof.
  intros Hm Hall.
  destruct (checkMetric_cases E rule m st) as
    [(b & Hb & ->)|[(err & _ & Hs & ->)|(lset & w & Hnone & Hs & ->)]].
  - pose proof (Hall m b Hb) as ->. done.
  - destruct (Hm (calls st) (seriesRequest E m st) eq_refl) as (l & w & Hl & _).
    congruence.
  - destruct (Hm (calls st) (seriesRequest E m st) eq_refl) as (l & w' & Hl & Hne).
    rewrite Hl in Hs. injection Hs as <- <-.
    rewrite verdict_nonempty, bool_decide_eq_true_2 by done. cbv zeta iota. simpl.
    rewrite lookup_insert_eq. split; [done|]. split; [|done].
    intros m' b. simpl. destruct (decide (m = m')) as [<-|Hne'].
    + rewrite lookup_insert_eq. congruence.
    + rewrite lookup_insert_ne by done. apply Hall.
Qed.

Lemma checkMetrics_clean (E : Env) (rule : string) (ms : list string) (st : State) :
  (∀ m, m ∈ ms → hasSeries E m) →
  allFound st →
  stderr (fold_left (checkMetric E rule) ms st) = stderr st ∧
  allFound (fold_left (checkMetric E rule) ms st) ∧
  ∀ m, m ∈ ms → metrics (fold_left (checkMetric E rule) ms st) !! m = Some true.
Proof.
  revert st. induction ms as [|m ms IH]; intros st Hms Hall; simpl.
  - split; [done|]. split; [done|]. intros m Hm. by apply elem_of_nil in Hm.
  - destruct (checkMetric_clean E rule m st) as (H1 & H2 & H3); [apply Hms; left | done |].
    destruct (IH (checkMetric E rule st m)) as (H4 & H5 & H6);
      [intros m' Hm'; apply Hms; by right | done |].
    split; [congruence|]. split; [done|].
    intros m' [->|Hm']%elem_of_cons; [|by apply H6].
    destruct (grows_checkMetrics E rule ms (checkMetric E rule st m)) as (Hsub & _).
    by apply (lookup_weaken _ _ _ _ H3 Hsub).
Qed.

Lemma lintRules_clean (E : Env) (rules : list string) (st : State) :
  range_ok E →
  (∀ rule, rule ∈ rules → ∃ expr, promql_ParseExpr E rule = inr expr) →
  (∀ rule m, rule ∈ rules → m ∈ referenced E rule → hasSeries E m) →
  allFound st →
  stderr (fold_left (lintRule E) rules st) = stderr st ∧
  allFound (fold_left (lintRule E) rules st) ∧
  ∀ rule m, rule ∈ rules → m ∈ referenced E rule →
    metrics (fold_left (lintRule E) rules st) !! m = Some true.
Proof.
  intros Hr. revert st. induction rules as [|r rules IH]; intros st Hparse Hup Hall; simpl.
  - split; [done|]. split; [done|]. intros rule m Hin. by apply elem_of_nil in Hin.
  - destruct (Hparse r) as [expr Hp]; [left|].
    assert (referenced E r = names expr) as Href by (unfold referenced; by rewrite Hp).
    assert (lintRule E st r =
            fold_left (checkMetric E r) (map_range E (ranges st) (names expr))
              (tickRange st)) as Hlint.
    { unfold lintRule. by rewrite (getMetrics_parsed _ _ _ _ Hp). }
    destruct (checkMetrics_clean E r (map_range E (ranges st) (names expr))
                (tickRange st)) as (H1 & H2 & H3); [|done|].
    { intros m Hm. apply (Hup r m); [left|]. rewrite Href. by apply range_elem_of in Hm. }
    rewrite <- Hlint in H1, H2, H3.
    destruct (IH (lintRule E st r)) as (H4 & H5 & H6).
    { intros rule Hin. apply Hparse. by right. }
    { intros rule m Hin. apply Hup. by right. }
    { done. }
    split; [by rewrite H4, H1|]. split; [done|].
    intros rule m [->|Hin]%elem_of_cons Hm; [|by apply (H6 rule)].
    destruct (grows_lintRules E rules (lintRule E st r)) as (Hsub & _).
    eapply lookup_weaken; [|exact Hsub]. apply H3. apply range_elem_of; [done|].
    by rewrite <- Href.
Qed.

(** When every listed rule parses and the server has a series for every
    metric they refer to, the run prints nothing at all, resolves every
    one of those metrics as existing, and [main] exits with status 0. *)
Theorem clean_run_is_silent (E : Env) (promURL : string) (res : RulesResult) :
  range_ok E →
  listed E promURL res →
  (∀ rule, rule ∈ listRuleQueries res → ∃ expr, promql_ParseExpr E rule = inr expr) →
  (∀ rule m, rule ∈ listRuleQueries res → m ∈ referenced E rule → hasSeries E m) →
  snd (main E false promURL) = snd (run E promURL initState) ∧
  fst (main E false promURL) = 0%Z ∧
  stderr (snd (run E promURL initState)) = [] ∧
  ∀ rule m, rule ∈ listRuleQueries res → m ∈ referenced E rule →
    metrics (snd (run E promURL initState)) !! m = Some true.
Proof.
  intros Hr Hl Hparse Hup. unfold main. rewrite (run_listed _ _ _ _ Hl). simpl.
  destruct (lintRules_clean E (listRuleQueries res)
              (logCall RulesCall (setMetrics ∅ initState)) Hr Hparse Hup)
    as (H1 & _ & H3).
  { intros m b H. simpl in H. by rewrite lookup_empty in H. }
  done.
Qed.

Lemma hasSeries_demo_up (rs : error + RulesResult) (order : nat → gset string → list string) :
  hasSeries (Demo.env rs Demo.series order) "up".
Proof.
  intros h req Hreq. exists Demo.oneSeries, []. simpl. unfold Demo.series.
  rewrite Hreq. by rewrite decide_True.
Qed.

Lemma referenced_healthy (rule : string) :
  rule ∈ ["up"; "up == 0"; "sum(up) / count_over_time(up[1h:])"] →
  referenced Demo.healthy rule = {["up"]}.
Proof.
  intros Hin. repeat (apply elem_of_cons in Hin as [->|Hin]);
    [| | |by apply elem_of_nil in Hin]; by vm_compute.
Qed.

Lemma clean_run_is_silent_witness :
  fst (main Demo.healthy false Demo.address) = 0%Z ∧
  stderr (snd (run Demo.healthy Demo.address initState)) = [] ∧
  metrics (snd (run Demo.healthy Demo.address initState)) !! "up" = Some true.
Proof.
  destruct (clean_run_is_silent Demo.healthy Demo.address _
              (ascending_ok _ _) (listed_demo _ _ _)) as (_ & H2 & H3 & H4).
  - intros rule Hin. cbn in Hin.
    repeat (apply elem_of_cons in Hin as [->|Hin]); try (by eexists).
    by apply elem_of_nil in Hin.
  - intros rule m Hin Hm. cbn in Hin. rewrite (referenced_healthy rule Hin) in Hm.
    apply elem_of_singleton in Hm as ->. apply hasSeries_demo_up.
  - split; [exact H2|]. split; [exact H3|].
    apply (H4 "up"); [left|]. rewrite referenced_healthy; [by apply elem_of_singleton | left].
Defined.

(** ** What the memo table holds at the end *)

(** At the end of a run every entry of the memo table is for a metric
    that some listed rule refers to, and its value is the verdict of a
    query for that metric which is in the log and which the server
    answered: the table never holds a guess. *)
Theorem memo_table_holds_only_answers (E : Env) (promURL : string)
    (res : RulesResult) (m : string) (b : bool) :
  range_ok E →
  listed E promURL res →
  metrics (snd (run E promURL initState)) !! m = Some b →
  (∃ rule, rule ∈ listRuleQueries res ∧ m ∈ referenced E rule) ∧
  ∃ req lset w,
    SeriesCall req (inr (lset, w)) ∈ calls (snd (run E promURL initState)) ∧
    matches req = [m] ∧ b = verdict lset.
Proof.
  intros Hr Hl Hb.
  pose proof (reachable_consistent E _ (reachable_run E promURL)) as Hc.
  destruct (cached_answered _ Hc m b Hb) as (req & lset & w & Hin & Hreq & Hv).
  split; [|by exists req, lset, w].
  rewrite (run_listed _ _ _ _ Hl) in Hin. simpl in Hin.
  destruct (lintRules_adds E (listRuleQueries res)
              (logCall RulesCall (setMetrics ∅ initState)) Hr)
    as (cs & out & Hcs & _ & Hq & _).
  rewrite Hcs in Hin. simpl in Hin.
  apply elem_of_cons in Hin as [Hin|Hin]; [discriminate|].
  rewrite Forall_forall in Hq.
  destruct (Hq _ Hin) as (req' & resp & m' & rule & Heq & Hm' & _ & Hrule & Href).
  injection Heq as <- _. exists rule. split; [done|]. congruence.
Qed.

Lemma memo_table_holds_only_answers_witness :
  (∃ rule, rule ∈ ["foo + bar"; "up"; "foo + bar"] ∧
           "bar" ∈ referenced Demo.repeated rule) ∧
  ∃ req lset w,
    SeriesCall req (inr (lset, w)) ∈ calls (snd (run Demo.repeated Demo.address initState)) ∧
    matches req = ["bar"] ∧ false = verdict lset.
Proof.
  apply (memo_table_holds_only_answers Demo.repeated Demo.address _ "bar" false
           (descending_ok _ _) (listed_demo _ _ _)).
  by vm_compute.
Defined.
